(** * DoublePendulum: a two-link pendulum with unilateral contacts

    Shallow embedding of [src/DoublePendulum.py] and the properties of
    its mass matrix, free acceleration, constraint evaluator and impact
    map.

    Modelling choices.
    - Numbers are the reals of the Standard Library: rounding is
      abstracted, so an approximate equality of the floating point code
      reads as an equality here.  The one non-finite value the program
      can manufacture from finite inputs, the [nan] that [np.arccos]
      returns outside [-1, 1], is kept ([float64]).
    - The entries of the dict [p] are Python numbers, so a division by
      zero raises [ZeroDivisionError].
    - The numeric evaluator is fixed: the key ['symbolic'] is absent from
      [p] or false, hence [cos = np.cos], [sin = np.sin] and [ddq] inverts
      with [la.inv].  Arrays of sympy expressions have no counterpart in
      this embedding.
    - A Python call either returns or raises: [result]. *)

From Stdlib Require Import Reals Lra Lia List Bool ZArith PeanoNat.
Import ListNotations.

Open Scope R_scope.

(** ** Outcomes of a call *)

Inductive exn : Set :=
| IndexError
| ZeroDivisionError
| ValueError
| LinAlgError.

Inductive result (A : Type) : Type :=
| Ok (a : A)
| Raise (e : exn).

Arguments Ok {A} a.
Arguments Raise {A} e.

Definition bind {A B : Type} (r : result A) (f : A -> result B) : result B :=
  match r with
  | Ok a => f a
  | Raise e => Raise e
  end.

Notation "x <- r ;; k" := (bind r (fun x => k))
  (at level 61, r at next level, right associativity).

Definition raises {A : Type} (r : result A) : Prop :=
  exists e, r = Raise e.

Definition returns {A : Type} (r : result A) : Prop :=
  exists a, r = Ok a.

(** [l[i]] on a Python sequence with a non-negative index. *)
Definition getitem {A : Type} (l : list A) (i : nat) : result A :=
  match nth_error l i with
  | Some x => Ok x
  | None => Raise IndexError
  end.

(** ** Numbers *)

(** Python's [x / y] on floats. *)
Definition py_div (x y : R) : result R :=
  if Req_dec_T y 0 then Raise ZeroDivisionError else Ok (x / y).

(** A cell of a float array: a finite real or [nan]. *)
Inductive float64 : Set :=
| Fin (r : R)
| NaN.

Definition f64_add (x y : float64) : float64 :=
  match x, y with
  | Fin a, Fin b => Fin (a + b)
  | _, _ => NaN
  end.

(** [x < 0] on a cell; every comparison with [nan] is false. *)
Definition f64_ltb0 (x : float64) : bool :=
  match x with
  | Fin r => if Rlt_dec r 0 then true else false
  | NaN => false
  end.

(** [np.arccos]: outside [-1, 1] it warns and returns [nan]. *)
Definition np_arccos (x : R) : float64 :=
  if Rle_dec (Rabs x) 1 then Fin (acos x) else NaN.

(** ** Arrays *)

Definition vector := list R.

(** A two-dimensional array of shape [(length rows, ncols)]; the column
    count is kept apart because an array may have no row. *)
Record matrix : Type := mkMatrix {
  ncols : nat;
  rows : list (list R)
}.

Definition nrows (A : matrix) : nat := length (rows A).

Definition shape (A : matrix) : nat * nat := (nrows A, ncols A).

(** [A.size] *)
Definition size (A : matrix) : nat := (nrows A * ncols A)%nat.

Fixpoint dot (u v : list R) : R :=
  match u, v with
  | x :: u', y :: v' => x * y + dot u' v'
  | _, _ => 0
  end.

Definition column (j : nat) (A : matrix) : list R :=
  map (fun r => nth j r 0) (rows A).

(** [A.T] *)
Definition transpose (A : matrix) : matrix :=
  mkMatrix (nrows A) (map (fun j => column j A) (seq 0 (ncols A))).

(** The product of two arrays whose inner dimensions agree. *)
Definition mmul (A B : matrix) : matrix :=
  mkMatrix (ncols B)
    (map (fun r => map (fun j => dot r (column j B)) (seq 0 (ncols B)))
         (rows A)).

(** [A @ B] on two-dimensional arrays. *)
Definition matmul (A B : matrix) : result matrix :=
  if (ncols A =? nrows B)%nat then Ok (mmul A B) else Raise ValueError.

Definition mvmul (A : matrix) (v : vector) : vector :=
  map (fun r => dot r v) (rows A).

(** [A @ v] with [v] one-dimensional. *)
Definition matvec (A : matrix) (v : vector) : result vector :=
  if (ncols A =? length v)%nat then Ok (mvmul A v) else Raise ValueError.

(** [c * A] *)
Definition scale (c : R) (A : matrix) : matrix :=
  mkMatrix (ncols A) (map (map (Rmult c)) (rows A)).

(** [-A] *)
Definition neg (A : matrix) : matrix :=
  mkMatrix (ncols A) (map (map Ropp) (rows A)).

Fixpoint vadd (u v : list R) : list R :=
  match u, v with
  | x :: u', y :: v' => (x + y) :: vadd u' v'
  | _, _ => []
  end.

Fixpoint radd (a b : list (list R)) : list (list R) :=
  match a, b with
  | r :: a', s :: b' => vadd r s :: radd a' b'
  | _, _ => []
  end.

Definition madd (A B : matrix) : matrix :=
  mkMatrix (ncols A) (radd (rows A) (rows B)).

Definition shape_eqb (A B : matrix) : bool :=
  (nrows A =? nrows B)%nat && (ncols A =? ncols B)%nat.

(** [A + B].  The program only adds [np.identity(len(q))] to a product
    with two columns and as many rows; [len(q)] is at least 2 by then,
    so shapes that differ never broadcast. *)
Definition add (A B : matrix) : result matrix :=
  if shape_eqb A B then Ok (madd A B) else Raise ValueError.

(** [np.identity(n)] *)
Definition identity (n : nat) : matrix :=
  mkMatrix n
    (map (fun i => map (fun j => if (i =? j)%nat then 1 else 0) (seq 0 n))
         (seq 0 n)).

(** [np.array([]).reshape(0, n)] *)
Definition empty_rows (n : nat) : matrix := mkMatrix n [].

(** ** Matrix inverse *)

Fixpoint remove_nth {A : Type} (j : nat) (l : list A) : list A :=
  match l, j with
  | [], _ => []
  | _ :: t, O => t
  | h :: t, S j' => h :: remove_nth j' t
  end.

(** Rows [rs] without row [i] and column [j]. *)
Definition minor (i j : nat) (rs : list (list R)) : list (list R) :=
  map (remove_nth j) (remove_nth i rs).

(** Determinant of an [n] by [n] block, expanded along its first row. *)
Fixpoint det_rows (n : nat) (rs : list (list R)) : R :=
  match n with
  | O => 1
  | S n' =>
      match rs with
      | [] => 0
      | r0 :: _ =>
          fold_right Rplus 0
            (map (fun j => (-1) ^ j * nth j r0 0 * det_rows n' (minor 0 j rs))
                 (seq 0 n))
      end
  end.

Definition det (A : matrix) : R := det_rows (nrows A) (rows A).

Definition cofactor (n i j : nat) (rs : list (list R)) : R :=
  (-1) ^ (i + j) * det_rows (pred n) (minor i j rs).

Definition adjugate (A : matrix) : matrix :=
  let n := nrows A in
  mkMatrix n
    (map (fun i => map (fun j => cofactor n j i (rows A)) (seq 0 n))
         (seq 0 n)).

(** What the LAPACK wrapper does with an array of shape [(0, 0)] has
    changed between SciPy releases: it was rejected with a [ValueError],
    later releases return the empty array. *)
Inductive empty_policy : Set :=
| RejectEmpty
| AcceptEmpty.

(** [la.inv(A)]: [ValueError] unless square, [LinAlgError] when singular. *)
Definition la_inv (pol : empty_policy) (A : matrix) : result matrix :=
  if negb (nrows A =? ncols A)%nat then Raise ValueError
  else
    match rows A with
    | [] =>
        match pol with
        | RejectEmpty => Raise ValueError
        | AcceptEmpty => Ok A
        end
    | _ :: _ =>
        if Req_dec_T (det A) 0 then Raise LinAlgError
        else Ok (scale (/ det A) (adjugate A))
    end.

(** ** The program *)

Module DoublePendulum.

(** The dict [p]: masses, lengths and the restitution coefficient. *)
Record params : Type := mkParams {
  m0 : R;
  m1 : R;
  l0 : R;
  l1 : R;
  gamma : R
}.

(** The three inertia coefficients; [M], [C] and [a] each recompute the
    ones they use from [p] with these expressions. *)
Definition coef_a (p : params) : R :=
  m0 p * l0 p ^ 2 / 3 + m1 p * l1 p ^ 2 / 3 + m0 p * (l0 p / 2) ^ 2
  + m1 p * (l0 p ^ 2 + (l1 p / 2) ^ 2).

Definition coef_b (p : params) : R := m1 p * l0 p * l1 p / 2.

Definition coef_d (p : params) : R :=
  m1 p * l1 p ^ 2 / 3 + m1 p * (l1 p / 2) ^ 2.

(** [np.array] of a list of rows of equal length. *)
Definition np_array (rs : list (list R)) : matrix :=
  mkMatrix (match rs with [] => 0%nat | r :: _ => length r end) rs.

Section Methods.

Variable pol : empty_policy.

(** Every method takes the time [t] and the index [k], and never reads
    them. *)

Definition M (t : R) (k : Z) (q : vector) (J : list bool) (p : params)
  : result matrix :=
  let a := coef_a p in
  let b := coef_b p in
  let d := coef_d p in
  q1 <- getitem q 1 ;;
  let m00 := a + 2 * b * cos q1 in
  let m10 := d + b * cos q1 in
  let m11 := d in
  Ok (np_array [[m00; m10]; [m10; m11]]).

Definition C (t : R) (k : Z) (q dq : vector) (J : list bool) (p : params)
  : result matrix :=
  let b := coef_b p in
  q1 <- getitem q 1 ;;
  dq1 <- getitem dq 1 ;;
  let c00 := - b * sin q1 * dq1 in
  dq0 <- getitem dq 0 ;;
  let c01 := - b * sin q1 * (dq0 + dq1) in
  let c10 := b * sin q1 * dq0 in
  let c11 := 0 in
  Ok (np_array [[c00; c01]; [c10; c11]]).

(** No external forces: [M ddq + C(q, dq) dq = 0]. *)
Definition ddq (t : R) (k : Z) (q dq : vector) (J : list bool) (p : params)
  : result vector :=
  Mq <- M t k q J p ;;
  Minv <- la_inv pol Mq ;;
  Cq <- C t k q dq J p ;;
  v <- matvec (neg Cq) dq ;;
  matvec Minv v.

(** The unilateral constraint. *)
Definition a (t : R) (k : Z) (q dq : vector) (J : list bool) (p : params)
  : result (list float64) :=
  let b := coef_b p in
  let d := coef_d p in
  q0 <- getitem q 0 ;;
  let a0 := Fin (q0 + 0) in
  q1 <- getitem q 1 ;;
  x <- py_div (- d) b ;;
  let a1 := f64_add (Fin (- q1)) (np_arccos x) in
  Ok [a0; a1].

Definition G (t : R) (k : Z) (q dq : vector) (J : list bool) (p : params)
  : result (list float64) :=
  a t k q dq J p.

Definition Da (t : R) (k : Z) (q dq : vector) (J : list bool) (p : params)
  : result matrix :=
  let Da0 := [] in
  j0 <- getitem J 0 ;;
  let Da1 := if j0 : bool then Da0 ++ [[1; 0]] else Da0 in
  j1 <- getitem J 1 ;;
  let Da2 := if j1 : bool then Da1 ++ [[0; -1]] else Da1 in
  let arr := np_array Da2 in
  if (0 <? size arr)%nat then Ok arr else Ok (empty_rows (length q)).

Definition Delta (t : R) (k : Z) (q dq : vector) (J : list bool) (p : params)
  : result matrix :=
  let d := length q in
  let gamma := gamma p in
  Mq <- M t k q J p ;;
  DA <- Da t k q dq J p ;;
  Minv <- la_inv pol Mq ;;
  DM <- matmul DA Minv ;;
  S <- matmul DM (transpose DA) ;;
  Sinv <- la_inv pol S ;;
  let Lambda := neg Sinv in
  Minv' <- la_inv pol Mq ;;
  P1 <- matmul (scale (1 + gamma) Minv') (transpose DA) ;;
  P2 <- matmul P1 Lambda ;;
  P3 <- matmul P2 DA ;;
  add (identity d) P3.

(** Non plastic impact.  The method is called [R] in the source. *)
Definition R_ (t : R) (k : Z) (q dq : vector) (J : list bool) (p : params)
  : result (vector * vector * list bool) :=
  av <- a t k q dq J p ;;
  let Jimpact := map f64_ltb0 av in
  D <- Delta t k q dq Jimpact p ;;
  dq_ <- matvec D dq ;;
  Ok (q, dq_, J).

End Methods.

Definition simultaneous_impact_velocity : vector := [-1; 1].

Definition nominal_parameters : params :=
  mkParams 1 1 (5 / 10) (2 / 7) (3 / 10).

End DoublePendulum.

Import DoublePendulum.

(** ** Notions used by the statements *)

(** The spec's domain for the masses and lengths. *)
Definition valid_params (p : params) : Prop :=
  0 < m0 p /\ 0 < m1 p /\ 0 < l0 p /\ 0 < l1 p.

(** [B] is the two-sided inverse of the square array [A]. *)
Definition is_inverse (A B : matrix) : Prop :=
  nrows A = ncols A /\ shape B = shape A /\
  mmul A B = identity (nrows A) /\ mmul B A = identity (nrows A).

(** The projector as the spec writes it,
    [I + (1 + gamma) * Minv * Da^T * Lambda * Da] with
    [Lambda = - Sinv], the products taken from the right. *)
Definition Delta_spec (g : R) (Minv DA Sinv : matrix) : matrix :=
  let Lambda := neg Sinv in
  madd (identity 2)
       (scale (1 + g) (mmul Minv (mmul (transpose DA) (mmul Lambda DA)))).

(** The part of [Delta] that follows the evaluation of [M] and [Da]. *)
Definition projector (pol : empty_policy) (g : R) (d : nat)
  (Mq DA : matrix) : result matrix :=
  Minv <- la_inv pol Mq ;;
  DM <- matmul DA Minv ;;
  S <- matmul DM (transpose DA) ;;
  Sinv <- la_inv pol S ;;
  let Lambda := neg Sinv in
  Minv' <- la_inv pol Mq ;;
  P1 <- matmul (scale (1 + g) Minv') (transpose DA) ;;
  P2 <- matmul P1 Lambda ;;
  P3 <- matmul P2 DA ;;
  add (identity d) P3.

(** [A[i][j]] *)
Definition entry (i j : nat) (A : matrix) : R :=
  nth j (nth i (rows A) []) 0.

(** The rows that [Da] collects for an active set. *)
Definition active_rows (j0 j1 : bool) : list (list R) :=
  (if j0 then [[1; 0]] else []) ++ (if j1 then [[0; -1]] else []).

(** * Properties *)

(** ** Tactics for arrays *)

Ltac arr_eq :=
  repeat match goal with
  | |- ?u = ?u => reflexivity
  | |- Ok _ = Ok _ => apply f_equal
  | |- mkMatrix _ _ = mkMatrix _ _ => apply f_equal2; [reflexivity|]
  | |- (_, _) = (_, _) => apply f_equal2
  | |- _ :: _ = _ :: _ => apply f_equal2
  | |- @nil _ = @nil _ => reflexivity
  end.

Ltac arr_compute :=
  cbv beta iota zeta delta
    [bind matmul matvec add mmul mvmul madd scale neg transpose identity
     empty_rows column dot vadd radd shape_eqb nrows ncols rows size shape
     det det_rows minor remove_nth cofactor adjugate np_array active_rows
     getitem nth_error map seq nth length app fold_right pred repeat
     Nat.eqb Nat.ltb Nat.leb Nat.add Nat.mul andb negb orb].

(** ** The inverse on the shapes the program meets *)

Lemma det_2x2 (x y z w : R) :
  det (mkMatrix 2 [[x; y]; [z; w]]) = x * w - y * z.
Proof. arr_compute. cbn [pow]. ring. Qed.

Lemma det_1x1 (x : R) : det (mkMatrix 1 [[x]]) = x.
Proof. arr_compute. cbn [pow]. ring. Qed.

Lemma la_inv_2x2 pol (x y z w : R) :
  x * w - y * z <> 0 ->
  la_inv pol (mkMatrix 2 [[x; y]; [z; w]]) =
  Ok (mkMatrix 2 [[w / (x * w - y * z); - y / (x * w - y * z)];
                  [- z / (x * w - y * z); x / (x * w - y * z)]]).
Proof.
  intros H. unfold la_inv. cbn [nrows rows ncols length Nat.eqb negb].
  rewrite det_2x2. destruct (Req_dec_T _ _) as [E|E]; [contradiction|].
  arr_compute. arr_eq; cbn [pow]; field; assumption.
Qed.

Lemma la_inv_2x2_singular pol (x y z w : R) :
  x * w - y * z = 0 ->
  la_inv pol (mkMatrix 2 [[x; y]; [z; w]]) = Raise LinAlgError.
Proof.
  intros H. unfold la_inv. cbn [nrows rows ncols length Nat.eqb negb].
  rewrite det_2x2.
  destruct (Req_dec_T _ _) as [E|E]; [reflexivity|contradiction].
Qed.

Lemma la_inv_1x1 pol (x : R) :
  x <> 0 -> la_inv pol (mkMatrix 1 [[x]]) = Ok (mkMatrix 1 [[/ x]]).
Proof.
  intros H. unfold la_inv. cbn [nrows rows ncols length Nat.eqb negb].
  rewrite det_1x1. destruct (Req_dec_T _ _) as [E|E]; [contradiction|].
  arr_compute. arr_eq; cbn [pow]; field; assumption.
Qed.

(** The cofactor expansion on a three by three array. *)
Example la_inv_3x3 pol :
  exists B,
    la_inv pol (mkMatrix 3 [[2; 0; 1]; [1; 1; 0]; [0; 1; 1]]) = Ok B /\
    is_inverse (mkMatrix 3 [[2; 0; 1]; [1; 1; 0]; [0; 1; 1]]) B.
Proof.
  assert (Hd : det (mkMatrix 3 [[2; 0; 1]; [1; 1; 0]; [0; 1; 1]]) = 3).
  { arr_compute. cbn [pow]. ring. }
  eexists. split.
  - unfold la_inv. cbn [nrows rows ncols length Nat.eqb negb].
    rewrite Hd. destruct (Req_dec_T 3 0) as [E|_]; [lra|]. reflexivity.
  - repeat split; arr_compute; arr_eq; cbn [pow]; field.
Qed.

Lemma la_inv_empty_accept :
  la_inv AcceptEmpty (mkMatrix 0 []) = Ok (mkMatrix 0 []).
Proof. reflexivity. Qed.

Lemma la_inv_empty_reject :
  la_inv RejectEmpty (mkMatrix 0 []) = Raise ValueError.
Proof. reflexivity. Qed.

Lemma is_inverse_2x2 (x y z w : R) :
  x * w - y * z <> 0 ->
  is_inverse (mkMatrix 2 [[x; y]; [z; w]])
    (mkMatrix 2 [[w / (x * w - y * z); - y / (x * w - y * z)];
                 [- z / (x * w - y * z); x / (x * w - y * z)]]).
Proof.
  intros H. repeat split; arr_compute; arr_eq; field; assumption.
Qed.

Lemma is_inverse_1x1 (x : R) :
  x <> 0 -> is_inverse (mkMatrix 1 [[x]]) (mkMatrix 1 [[/ x]]).
Proof.
  intros H. repeat split; arr_compute; arr_eq; field; assumption.
Qed.

(** ** The projector for each active set *)

Section Projector.

Variables (pol : empty_policy) (g x y w : R).

Hypothesis Hdet : x * w - y * y <> 0.

Let Mq : matrix := mkMatrix 2 [[x; y]; [y; w]].

Lemma projector_TF :
  w <> 0 ->
  projector pol g 2 Mq (mkMatrix 2 [[1; 0]]) =
  Ok (mkMatrix 2 [[- g; 0]; [(1 + g) * y / w; 1]]).
Proof.
  intros Hw. unfold projector, Mq. rewrite la_inv_2x2 by assumption.
  arr_compute.
  match goal with |- context [la_inv _ (mkMatrix 1 [[?s]])] =>
    replace s with (w / (x * w - y * y)) by (field; assumption) end.
  rewrite la_inv_1x1
    by (apply Rmult_integral_contrapositive_currified;
        [assumption | apply Rinv_neq_0_compat; assumption]).
  arr_compute. arr_eq; field; auto.
Qed.

Lemma projector_FT :
  x <> 0 ->
  projector pol g 2 Mq (mkMatrix 2 [[0; -1]]) =
  Ok (mkMatrix 2 [[1; (1 + g) * y / x]; [0; - g]]).
Proof.
  intros Hx. unfold projector, Mq. rewrite la_inv_2x2 by assumption.
  arr_compute.
  match goal with |- context [la_inv _ (mkMatrix 1 [[?s]])] =>
    replace s with (x / (x * w - y * y)) by (field; assumption) end.
  rewrite la_inv_1x1
    by (apply Rmult_integral_contrapositive_currified;
        [assumption | apply Rinv_neq_0_compat; assumption]).
  arr_compute. arr_eq; field; auto.
Qed.

Lemma projector_TT :
  projector pol g 2 Mq (mkMatrix 2 [[1; 0]; [0; -1]]) =
  Ok (mkMatrix 2 [[- g; 0]; [0; - g]]).
Proof.
  unfold projector, Mq. rewrite la_inv_2x2 by assumption.
  arr_compute.
  match goal with
  | |- context [la_inv _ (mkMatrix 2 [[?s00; ?s01]; [?s10; ?s11]])] =>
    replace s00 with (w / (x * w - y * y)) by (field; assumption);
    replace s01 with (y / (x * w - y * y)) by (field; assumption);
    replace s10 with (y / (x * w - y * y)) by (field; assumption);
    replace s11 with (x / (x * w - y * y)) by (field; assumption)
  end.
  rewrite la_inv_2x2.
  2:{ replace (_ - _) with (/ (x * w - y * y)) by (field; assumption).
      apply Rinv_neq_0_compat; assumption. }
  arr_compute. arr_eq; field; auto.
Qed.

End Projector.

Lemma projector_FF_accept (g x y w : R) :
  x * w - y * y <> 0 ->
  projector AcceptEmpty g 2 (mkMatrix 2 [[x; y]; [y; w]]) (empty_rows 2) =
  Ok (identity 2).
Proof.
  intros HD. unfold projector. rewrite la_inv_2x2 by assumption.
  arr_compute. rewrite la_inv_empty_accept. arr_compute. arr_eq; ring.
Qed.

Lemma projector_FF_reject (g x y w : R) :
  x * w - y * y <> 0 ->
  projector RejectEmpty g 2 (mkMatrix 2 [[x; y]; [y; w]]) (empty_rows 2) =
  Raise ValueError.
Proof.
  intros HD. unfold projector. rewrite la_inv_2x2 by assumption.
  arr_compute. rewrite la_inv_empty_reject. reflexivity.
Qed.

(** ** Evaluation of the methods on a pair *)

Lemma Delta_projector pol t k q dq J p :
  Delta pol t k q dq J p =
  (Mq <- M t k q J p ;; DA <- Da t k q dq J p ;;
   projector pol (gamma p) (length q) Mq DA).
Proof. reflexivity. Qed.

Lemma M_pair t k q0 q1 J p :
  M t k [q0; q1] J p =
  Ok (mkMatrix 2 [[coef_a p + 2 * coef_b p * cos q1;
                   coef_d p + coef_b p * cos q1];
                  [coef_d p + coef_b p * cos q1; coef_d p]]).
Proof. reflexivity. Qed.

Lemma C_pair t k q0 q1 v0 v1 J p :
  C t k [q0; q1] [v0; v1] J p =
  Ok (mkMatrix 2 [[- coef_b p * sin q1 * v1;
                   - coef_b p * sin q1 * (v0 + v1)];
                  [coef_b p * sin q1 * v0; 0]]).
Proof. reflexivity. Qed.

Lemma Da_pair t k q0 q1 dq j0 j1 p :
  Da t k [q0; q1] dq [j0; j1] p = Ok (mkMatrix 2 (active_rows j0 j1)).
Proof. destruct j0, j1; reflexivity. Qed.

(** ** Valid parameters make the mass matrix definite *)

Lemma cos_sqr_le_1 (x : R) : cos x * cos x <= 1.
Proof.
  pose proof (COS_bound x) as [Hl Hu]. nra.
Qed.

Lemma coef_d_pos p : valid_params p -> 0 < coef_d p.
Proof.
  intros (_ & Hm1 & _ & Hl1). unfold coef_d.
  assert (0 < m1 p * (l1 p * l1 p)) by (repeat apply Rmult_lt_0_compat; lra).
  cbn [pow]. nra.
Qed.

Lemma M_det_pos p (q1 : R) :
  valid_params p ->
  0 < (coef_a p + 2 * coef_b p * cos q1) * coef_d p
      - (coef_d p + coef_b p * cos q1) * (coef_d p + coef_b p * cos q1).
Proof.
  intros (Hm0 & Hm1 & Hl0 & Hl1).
  pose proof (cos_sqr_le_1 q1) as Hc.
  unfold coef_a, coef_b, coef_d. cbn [pow].
  set (c := cos q1) in *.
  match goal with |- 0 < ?e =>
    replace e with
      (m1 p * (l1 p * l1 p) * (l0 p * l0 p)
       * (49 / 144 * m0 p + (1 / 3 + (1 - c * c) / 4) * m1 p))
      by field
  end.
  repeat apply Rmult_lt_0_compat; try assumption.
  assert (0 <= (1 - c * c) * m1 p) by (apply Rmult_le_pos; lra).
  nra.
Qed.

Lemma M_00_pos p (q1 : R) :
  valid_params p -> 0 < coef_a p + 2 * coef_b p * cos q1.
Proof.
  intros Hp. pose proof (M_det_pos p q1 Hp) as Hd.
  pose proof (coef_d_pos p Hp) as Hw.
  set (x := coef_a p + 2 * coef_b p * cos q1) in *.
  set (y := coef_d p + coef_b p * cos q1) in *.
  set (w := coef_d p) in *.
  destruct (Rlt_le_dec 0 x) as [Hx|Hx]; [exact Hx|exfalso].
  assert (x * w <= 0) by nra.
  assert (0 <= y * y) by nra.
  lra.
Qed.

(** ** The mass matrix *)

(** C5: for every configuration [q = (q0, q1)], [M] returns
    [[a + 2 b cos q1, d + b cos q1], [d + b cos q1, d]] with the spec's
    [a], [b] and [d]; its two off-diagonal entries are the same number,
    and the result does not change with [q0] (nor with [t], [k], [J]).
    Nothing here needs the parameters to be positive. *)
Theorem M_closed_form t k q0 q1 J p (ca cb cd : R) :
  ca = m0 p * l0 p ^ 2 / 3 + m1 p * l1 p ^ 2 / 3 + m0 p * (l0 p / 2) ^ 2
       + m1 p * (l0 p ^ 2 + (l1 p / 2) ^ 2) ->
  cb = m1 p * l0 p * l1 p / 2 ->
  cd = m1 p * l1 p ^ 2 / 3 + m1 p * (l1 p / 2) ^ 2 ->
  exists Mq,
    M t k [q0; q1] J p = Ok Mq /\
    Mq = mkMatrix 2 [[ca + 2 * cb * cos q1; cd + cb * cos q1];
                     [cd + cb * cos q1; cd]] /\
    entry 0 1 Mq = entry 1 0 Mq /\
    forall t' k' q0' J', M t' k' [q0'; q1] J' p = Ok Mq.
Proof.
  intros -> -> ->. eexists. split; [apply M_pair|].
  split; [reflexivity|]. split; [reflexivity|].
  intros. apply M_pair.
Qed.

Lemma M_closed_form_witness :
  exists Mq,
    M 0 0 [0; 0] [false; false] nominal_parameters = Ok Mq /\
    Mq = mkMatrix 2
           [[coef_a nominal_parameters
             + 2 * coef_b nominal_parameters * cos 0;
             coef_d nominal_parameters + coef_b nominal_parameters * cos 0];
            [coef_d nominal_parameters + coef_b nominal_parameters * cos 0;
             coef_d nominal_parameters]] /\
    entry 0 1 Mq = entry 1 0 Mq /\
    forall t' k' q0' J', M t' k' [q0'; 0] J' nominal_parameters = Ok Mq.
Proof.
  apply (M_closed_form 0 0 0 0 [false; false] nominal_parameters
           (coef_a nominal_parameters) (coef_b nominal_parameters)
           (coef_d nominal_parameters)); reflexivity.
Defined.

(** ** The constraint and its Jacobian *)

Lemma a_in_domain t k q0 q1 dq J p :
  coef_b p <> 0 ->
  Rabs (coef_d p / coef_b p) <= 1 ->
  a t k [q0; q1] dq J p
  = Ok [Fin q0; Fin (- q1 + acos (- coef_d p / coef_b p))].
Proof.
  intros Hb Hr. unfold a.
  cbn [getitem nth_error bind]. unfold py_div.
  destruct (Req_dec_T (coef_b p) 0) as [E|_]; [contradiction|].
  cbn [bind]. unfold np_arccos.
  replace (- coef_d p / coef_b p) with (- (coef_d p / coef_b p))
    by (field; assumption).
  rewrite Rabs_Ropp.
  destruct (Rle_dec _ 1) as [_|N]; [|contradiction].
  cbn [f64_add]. rewrite Rplus_0_r. reflexivity.
Qed.

(** C7: when [b <> 0] and [|d / b| <= 1], [a] returns the two cells
    [q0] and [- q1 + arccos (- d / b)]. *)
Theorem a_value t k q0 q1 dq J p (cb cd : R) :
  cb = m1 p * l0 p * l1 p / 2 ->
  cd = m1 p * l1 p ^ 2 / 3 + m1 p * (l1 p / 2) ^ 2 ->
  cb <> 0 ->
  Rabs (cd / cb) <= 1 ->
  a t k [q0; q1] dq J p = Ok [Fin q0; Fin (- q1 + acos (- cd / cb))].
Proof.
  intros -> ->. apply a_in_domain.
Qed.

Lemma nominal_coef_b : coef_b nominal_parameters = 1 / 14.
Proof. unfold coef_b, nominal_parameters; cbn [m1 l0 l1]. field. Qed.

Lemma nominal_coef_d : coef_d nominal_parameters = 1 / 21.
Proof. unfold coef_d, nominal_parameters; cbn [m1 l1 pow]. field. Qed.

Lemma a_value_witness :
  a 0 0 [0; 0] [0; 0] [false; false] nominal_parameters =
  Ok [Fin 0;
      Fin (- 0 + acos (- coef_d nominal_parameters
                       / coef_b nominal_parameters))].
Proof.
  apply (a_value 0 0 0 0 [0; 0] [false; false] nominal_parameters
           (coef_b nominal_parameters) (coef_d nominal_parameters)).
  - reflexivity.
  - reflexivity.
  - rewrite nominal_coef_b. lra.
  - rewrite nominal_coef_b, nominal_coef_d.
    rewrite Rabs_pos_eq; lra.
Defined.

(** C8: [Da] collects the row [[1, 0]] when [J[0]] holds and then the
    row [[0, -1]] when [J[1]] holds; the array has two columns for a
    configuration of length two.  With no active contact it has no row
    and [len(q)] columns, with both it is [[1, 0], [0, -1]]. *)
Theorem Da_active_rows t k q0 q1 dq p :
  (forall j0 j1 : bool,
      exists DA,
        Da t k [q0; q1] dq [j0; j1] p = Ok DA /\
        rows DA = (if j0 then [[1; 0]] else [])
                  ++ (if j1 then [[0; -1]] else []) /\
        ncols DA = 2%nat) /\
  (exists DA,
      Da t k [q0; q1] dq [false; false] p = Ok DA /\
      shape DA = (0%nat, 2%nat)) /\
  (forall q, Da t k q dq [false; false] p = Ok (empty_rows (length q))) /\
  Da t k [q0; q1] dq [true; true] p = Ok (mkMatrix 2 [[1; 0]; [0; -1]]).
Proof.
  split; [|split; [|split]].
  - intros j0 j1. eexists. split; [apply Da_pair|].
    split; [reflexivity|reflexivity].
  - eexists. split; [apply Da_pair|reflexivity].
  - reflexivity.
  - reflexivity.
Qed.

(** Parameters with [d / b = 7 / 6]: unit masses and unit lengths. *)
Definition unit_parameters : params := mkParams 1 1 1 1 0.

Lemma unit_coef_b : coef_b unit_parameters = 1 / 2.
Proof. unfold coef_b, unit_parameters; cbn [m1 l0 l1]. field. Qed.

Lemma unit_coef_d : coef_d unit_parameters = 7 / 12.
Proof. unfold coef_d, unit_parameters; cbn [m1 l1 pow]. field. Qed.

Lemma a_zero_b t k q0 q1 dq J p :
  coef_b p = 0 -> a t k [q0; q1] dq J p = Raise ZeroDivisionError.
Proof.
  intros Hb. unfold a. cbn [getitem nth_error bind]. unfold py_div.
  destruct (Req_dec_T (coef_b p) 0) as [_|N]; [reflexivity|contradiction].
Qed.

Lemma a_out_of_domain t k q0 q1 dq J p :
  coef_b p <> 0 -> 1 < Rabs (coef_d p / coef_b p) ->
  a t k [q0; q1] dq J p = Ok [Fin q0; NaN].
Proof.
  intros Hb Hr. unfold a. cbn [getitem nth_error bind]. unfold py_div.
  destruct (Req_dec_T (coef_b p) 0) as [E|_]; [contradiction|].
  cbn [bind]. unfold np_arccos.
  replace (- coef_d p / coef_b p) with (- (coef_d p / coef_b p))
    by (field; assumption).
  rewrite Rabs_Ropp.
  destruct (Rle_dec _ 1) as [L|_]; [lra|].
  cbn [f64_add]. rewrite Rplus_0_r. reflexivity.
Qed.

(** C3, as the code has it: with [m1 = 0] the quotient [- d / b] divides
    by zero and [a] raises [ZeroDivisionError]; with [b <> 0] and
    [|d / b| > 1] nothing is raised and [a] returns [q0] and [nan]. *)
Theorem a_invalid_parameters t k q0 q1 dq J p :
  (m1 p = 0 -> a t k [q0; q1] dq J p = Raise ZeroDivisionError) /\
  (coef_b p <> 0 -> 1 < Rabs (coef_d p / coef_b p) ->
   a t k [q0; q1] dq J p = Ok [Fin q0; NaN]).
Proof.
  split.
  - intros Hm. apply a_zero_b. unfold coef_b. rewrite Hm. field.
  - apply a_out_of_domain.
Qed.

Lemma a_invalid_parameters_witness :
  a 0 0 [0; 0] [0; 0] [false; false] (mkParams 1 0 1 1 0)
  = Raise ZeroDivisionError /\
  a 0 0 [0; 0] [0; 0] [false; false] unit_parameters = Ok [Fin 0; NaN].
Proof.
  split.
  - apply (proj1 (a_invalid_parameters 0 0 0 0 [0; 0] [false; false]
                    (mkParams 1 0 1 1 0))).
    reflexivity.
  - apply (proj2 (a_invalid_parameters 0 0 0 0 [0; 0] [false; false]
                    unit_parameters)).
    + rewrite unit_coef_b. lra.
    + rewrite unit_coef_b, unit_coef_d. rewrite Rabs_pos_eq; lra.
Defined.

(** C3 as the spec states it fails: unit masses and lengths give
    [|d / b| = 7 / 6 > 1], and [a] returns a [nan] cell without raising. *)
Lemma a_returns_nan_silently :
  1 < Rabs (coef_d unit_parameters / coef_b unit_parameters) /\
  a 0 0 [0; 0] [0; 0] [false; false] unit_parameters = Ok [Fin 0; NaN] /\
  ~ raises (a 0 0 [0; 0] [0; 0] [false; false] unit_parameters).
Proof.
  assert (Hr : 1 < Rabs (coef_d unit_parameters / coef_b unit_parameters)).
  { rewrite unit_coef_b, unit_coef_d. rewrite Rabs_pos_eq; lra. }
  assert (Hb : coef_b unit_parameters <> 0).
  { rewrite unit_coef_b. lra. }
  split; [exact Hr|].
  rewrite (a_out_of_domain 0 0 0 0 [0; 0] [false; false] _ Hb Hr).
  split; [reflexivity|]. intros [e He]. discriminate He.
Qed.

(** ** The free acceleration *)

(** C6: for a pair of angles and a pair of velocities with [det M <> 0],
    [ddq] returns [Minv (- C dq)] for the inverse [Minv] of [M], and the
    value returned solves [M ddq = - C dq]. *)
Theorem ddq_solves pol t k q0 q1 v0 v1 J p Mq Cq :
  M t k [q0; q1] J p = Ok Mq ->
  C t k [q0; q1] [v0; v1] J p = Ok Cq ->
  det Mq <> 0 ->
  exists Minv acc,
    is_inverse Mq Minv /\
    ddq pol t k [q0; q1] [v0; v1] J p = Ok acc /\
    acc = mvmul Minv (mvmul (neg Cq) [v0; v1]) /\
    mvmul Mq acc = map Ropp (mvmul Cq [v0; v1]).
Proof.
  rewrite M_pair, C_pair. intros HM HC Hd.
  injection HM as <-. injection HC as <-.
  rewrite det_2x2 in Hd. unfold ddq. rewrite M_pair, C_pair.
  set (x := coef_a p + 2 * coef_b p * cos q1) in *.
  set (y := coef_d p + coef_b p * cos q1) in *.
  set (w := coef_d p) in *.
  set (s := coef_b p * sin q1) in *.
  clearbody x y w s.
  eexists. eexists. split; [apply is_inverse_2x2; exact Hd|].
  split.
  - cbn [bind]. rewrite la_inv_2x2 by exact Hd.
    arr_compute. reflexivity.
  - split; [arr_compute; reflexivity|].
    arr_compute. arr_eq; field; exact Hd.
Qed.

Lemma ddq_singular pol t k q0 q1 v0 v1 J p :
  (coef_a p + 2 * coef_b p * cos q1) * coef_d p
  - (coef_d p + coef_b p * cos q1) * (coef_d p + coef_b p * cos q1) = 0 ->
  ddq pol t k [q0; q1] [v0; v1] J p = Raise LinAlgError.
Proof.
  intros Hd. unfold ddq. rewrite M_pair. cbn [bind].
  rewrite la_inv_2x2_singular by exact Hd. reflexivity.
Qed.

Lemma ddq_solves_witness :
  exists Minv acc,
    is_inverse (mkMatrix 2 [[coef_a nominal_parameters
                             + 2 * coef_b nominal_parameters * cos 0;
                             coef_d nominal_parameters
                             + coef_b nominal_parameters * cos 0];
                            [coef_d nominal_parameters
                             + coef_b nominal_parameters * cos 0;
                             coef_d nominal_parameters]]) Minv /\
    ddq AcceptEmpty 0 0 [0; 0] [-1; 1] [false; false] nominal_parameters
    = Ok acc /\
    acc = mvmul Minv
            (mvmul (neg (mkMatrix 2
                           [[- coef_b nominal_parameters * sin 0 * 1;
                             - coef_b nominal_parameters * sin 0 * (-1 + 1)];
                            [coef_b nominal_parameters * sin 0 * -1; 0]]))
                   [-1; 1]) /\
    mvmul (mkMatrix 2 [[coef_a nominal_parameters
                        + 2 * coef_b nominal_parameters * cos 0;
                        coef_d nominal_parameters
                        + coef_b nominal_parameters * cos 0];
                       [coef_d nominal_parameters
                        + coef_b nominal_parameters * cos 0;
                        coef_d nominal_parameters]]) acc
    = map Ropp
        (mvmul (mkMatrix 2
                  [[- coef_b nominal_parameters * sin 0 * 1;
                    - coef_b nominal_parameters * sin 0 * (-1 + 1)];
                   [coef_b nominal_parameters * sin 0 * -1; 0]])
               [-1; 1]).
Proof.
  apply (ddq_solves AcceptEmpty 0 0 0 0 (-1) 1 [false; false]
           nominal_parameters).
  - reflexivity.
  - reflexivity.
  - rewrite det_2x2. apply Rgt_not_eq, Rlt_gt, M_det_pos.
    unfold valid_params, nominal_parameters; cbn [m0 m1 l0 l1].
    repeat split; lra.
Defined.

(** ** The impact projector *)

Section DeltaCases.

Variables (pol : empty_policy) (t : R) (k : Z) (q0 q1 : R) (dq : vector).
Variable p : params.

Let x : R := coef_a p + 2 * coef_b p * cos q1.
Let y : R := coef_d p + coef_b p * cos q1.
Let w : R := coef_d p.

Hypothesis Hdet : x * w - y * y <> 0.

Lemma Delta_TF :
  w <> 0 ->
  Delta pol t k [q0; q1] dq [true; false] p =
  Ok (mkMatrix 2 [[- gamma p; 0]; [(1 + gamma p) * y / w; 1]]).
Proof.
  intros Hw. rewrite Delta_projector, M_pair, Da_pair. cbn [bind].
  apply projector_TF; assumption.
Qed.

Lemma Delta_FT :
  x <> 0 ->
  Delta pol t k [q0; q1] dq [false; true] p =
  Ok (mkMatrix 2 [[1; (1 + gamma p) * y / x]; [0; - gamma p]]).
Proof.
  intros Hx. rewrite Delta_projector, M_pair, Da_pair. cbn [bind].
  apply projector_FT; assumption.
Qed.

Lemma Delta_TT :
  Delta pol t k [q0; q1] dq [true; true] p =
  Ok (mkMatrix 2 [[- gamma p; 0]; [0; - gamma p]]).
Proof.
  rewrite Delta_projector, M_pair, Da_pair. cbn [bind].
  apply projector_TT; assumption.
Qed.

End DeltaCases.

Lemma Delta_FF_accept t k q0 q1 dq p :
  (coef_a p + 2 * coef_b p * cos q1) * coef_d p
  - (coef_d p + coef_b p * cos q1) * (coef_d p + coef_b p * cos q1) <> 0 ->
  Delta AcceptEmpty t k [q0; q1] dq [false; false] p = Ok (identity 2).
Proof.
  intros Hd. rewrite Delta_projector, M_pair, Da_pair. cbn [bind].
  apply projector_FF_accept; assumption.
Qed.

Lemma Delta_FF_reject t k q0 q1 dq p :
  (coef_a p + 2 * coef_b p * cos q1) * coef_d p
  - (coef_d p + coef_b p * cos q1) * (coef_d p + coef_b p * cos q1) <> 0 ->
  Delta RejectEmpty t k [q0; q1] dq [false; false] p = Raise ValueError.
Proof.
  intros Hd. rewrite Delta_projector, M_pair, Da_pair. cbn [bind].
  apply projector_FF_reject; assumption.
Qed.

Lemma valid_nonzero p (q1 : R) :
  valid_params p ->
  (coef_a p + 2 * coef_b p * cos q1) * coef_d p
  - (coef_d p + coef_b p * cos q1) * (coef_d p + coef_b p * cos q1) <> 0 /\
  coef_a p + 2 * coef_b p * cos q1 <> 0 /\
  coef_d p <> 0.
Proof.
  intros Hp.
  pose proof (M_det_pos p q1 Hp). pose proof (M_00_pos p q1 Hp).
  pose proof (coef_d_pos p Hp).
  repeat split; apply Rgt_not_eq, Rlt_gt; assumption.
Qed.

Lemma nominal_valid : valid_params nominal_parameters.
Proof.
  unfold valid_params, nominal_parameters; cbn [m0 m1 l0 l1].
  repeat split; lra.
Qed.

Lemma projector_formula pol (g x y w : R) (j0 j1 : bool) :
  x * w - y * y <> 0 -> x <> 0 -> w <> 0 ->
  j0 || j1 = true ->
  exists Minv Sinv,
    is_inverse (mkMatrix 2 [[x; y]; [y; w]]) Minv /\
    is_inverse
      (mmul (mmul (mkMatrix 2 (active_rows j0 j1)) Minv)
            (transpose (mkMatrix 2 (active_rows j0 j1)))) Sinv /\
    projector pol g 2 (mkMatrix 2 [[x; y]; [y; w]])
      (mkMatrix 2 (active_rows j0 j1))
    = Ok (Delta_spec g Minv (mkMatrix 2 (active_rows j0 j1)) Sinv).
Proof.
  intros Hd Hx Hw HJ.
  exists (mkMatrix 2 [[w / (x * w - y * y); - y / (x * w - y * y)];
                      [- y / (x * w - y * y); x / (x * w - y * y)]]).
  destruct j0, j1; try discriminate HJ.
  - exists (mkMatrix 2 [[x; - y]; [- y; w]]).
    split; [apply is_inverse_2x2; exact Hd|]. split.
    + repeat split; arr_compute; arr_eq; field; assumption.
    + change (active_rows true true) with [[1; 0]; [0; -1]].
      rewrite projector_TT by assumption.
      unfold Delta_spec. arr_compute. arr_eq; field; assumption.
  - exists (mkMatrix 1 [[(x * w - y * y) / w]]).
    split; [apply is_inverse_2x2; exact Hd|]. split.
    + repeat split; arr_compute; arr_eq; field; auto.
    + change (active_rows true false) with [[1; 0]].
      rewrite projector_TF by assumption.
      unfold Delta_spec. arr_compute. arr_eq; field; auto.
  - exists (mkMatrix 1 [[(x * w - y * y) / x]]).
    split; [apply is_inverse_2x2; exact Hd|]. split.
    + repeat split; arr_compute; arr_eq; field; auto.
    + change (active_rows false true) with [[0; -1]].
      rewrite projector_FT by assumption.
      unfold Delta_spec. arr_compute. arr_eq; field; auto.
Qed.

(** C2: for valid parameters and an active set with at least one
    contact (the rows of [Da] are then independent), [M] and
    [Da Minv Da^T] have inverses [Minv] and [Sinv], and [Delta] returns
    [I + (1 + gamma) Minv Da^T Lambda Da] with [Lambda = - Sinv]. *)
Theorem Delta_formula pol t k q0 q1 dq (j0 j1 : bool) p :
  valid_params p ->
  j0 || j1 = true ->
  exists Mq DA Minv Sinv,
    M t k [q0; q1] [j0; j1] p = Ok Mq /\
    Da t k [q0; q1] dq [j0; j1] p = Ok DA /\
    is_inverse Mq Minv /\
    is_inverse (mmul (mmul DA Minv) (transpose DA)) Sinv /\
    Delta pol t k [q0; q1] dq [j0; j1] p
    = Ok (Delta_spec (gamma p) Minv DA Sinv).
Proof.
  intros Hp HJ. destruct (valid_nonzero p q1 Hp) as (Hd & Hx & Hw).
  destruct (projector_formula pol (gamma p) _ _ _ j0 j1 Hd Hx Hw HJ)
    as (Minv & Sinv & HM & HS & HP).
  eexists. eexists. exists Minv, Sinv.
  split; [apply M_pair|]. split; [apply Da_pair|].
  split; [exact HM|]. split; [exact HS|].
  rewrite Delta_projector, M_pair, Da_pair. cbn [bind]. exact HP.
Qed.

Lemma Delta_formula_witness :
  exists Mq DA Minv Sinv,
    M 0 0 [0; 0] [true; false] nominal_parameters = Ok Mq /\
    Da 0 0 [0; 0] [-1; 1] [true; false] nominal_parameters = Ok DA /\
    is_inverse Mq Minv /\
    is_inverse (mmul (mmul DA Minv) (transpose DA)) Sinv /\
    Delta AcceptEmpty 0 0 [0; 0] [-1; 1] [true; false] nominal_parameters
    = Ok (Delta_spec (gamma nominal_parameters) Minv DA Sinv).
Proof.
  apply (Delta_formula AcceptEmpty 0 0 0 0 [-1; 1] true false
           nominal_parameters).
  - unfold valid_params, nominal_parameters; cbn [m0 m1 l0 l1].
    repeat split; lra.
  - reflexivity.
Defined.

(** C9: with [gamma = 0], valid parameters and at least one active
    contact, the velocity after the projection has no component along
    the active constraint rows: [Da (Delta dq) = 0], for every [dq]. *)
Theorem Delta_tangency pol t k q0 q1 v0 v1 (j0 j1 : bool) p :
  gamma p = 0 ->
  valid_params p ->
  j0 || j1 = true ->
  exists D DA,
    Delta pol t k [q0; q1] [v0; v1] [j0; j1] p = Ok D /\
    Da t k [q0; q1] [v0; v1] [j0; j1] p = Ok DA /\
    (u <- matvec D [v0; v1] ;; matvec DA u) = Ok (repeat 0 (nrows DA)).
Proof.
  intros Hg Hp HJ. destruct (valid_nonzero p q1 Hp) as (Hd & Hx & Hw).
  destruct j0, j1; try discriminate HJ.
  - eexists. eexists. split; [apply Delta_TT; exact Hd|].
    split; [apply Da_pair|].
    rewrite Hg. arr_compute. arr_eq; ring.
  - eexists. eexists. split; [apply Delta_TF; assumption|].
    split; [apply Da_pair|].
    rewrite Hg. arr_compute. arr_eq; ring.
  - eexists. eexists. split; [apply Delta_FT; assumption|].
    split; [apply Da_pair|].
    rewrite Hg. arr_compute. arr_eq; ring.
Qed.

(** Parameters as the nominal ones with [gamma = 0]. *)
Definition plastic_parameters : params :=
  mkParams 1 1 (5 / 10) (2 / 7) 0.

Lemma Delta_tangency_witness :
  exists D DA,
    Delta AcceptEmpty 0 0 [0; 0] [-1; 1] [false; true] plastic_parameters
    = Ok D /\
    Da 0 0 [0; 0] [-1; 1] [false; true] plastic_parameters = Ok DA /\
    (u <- matvec D [-1; 1] ;; matvec DA u) = Ok (repeat 0 (nrows DA)).
Proof.
  apply (Delta_tangency AcceptEmpty 0 0 0 0 (-1) 1 false true
           plastic_parameters).
  - reflexivity.
  - unfold valid_params, plastic_parameters; cbn [m0 m1 l0 l1].
    repeat split; lra.
  - reflexivity.
Defined.

(** ** The impact map *)

Lemma Delta_shape pol t k q dq J p D :
  Delta pol t k q dq J p = Ok D -> ncols D = length q.
Proof.
  unfold Delta.
  repeat match goal with
  | |- bind ?r _ = Ok _ -> _ => destruct r; cbn [bind]; [|discriminate]
  end.
  unfold add. destruct (shape_eqb _ _); [|discriminate].
  intros [= <-]. unfold madd, identity. reflexivity.
Qed.

Lemma R_of_parts pol t k q0 q1 v0 v1 J p av D :
  a t k [q0; q1] [v0; v1] J p = Ok av ->
  Delta pol t k [q0; q1] [v0; v1] (map f64_ltb0 av) p = Ok D ->
  R_ pol t k [q0; q1] [v0; v1] J p = Ok ([q0; q1], mvmul D [v0; v1], J).
Proof.
  intros Ha HD. unfold R_. rewrite Ha. cbn [bind]. rewrite HD.
  cbn [bind]. unfold matvec.
  rewrite (Delta_shape _ _ _ _ _ _ _ _ HD). reflexivity.
Qed.

(** C1: whenever [a] returns [av] and [Delta], called with the active
    set [av < 0], returns [D], the impact map returns the configuration
    it was given, the velocity [D dq] and the active set it was given;
    and it returns nothing else. *)
Theorem R_impact_map pol t k q0 q1 v0 v1 J p :
  (forall av D,
      a t k [q0; q1] [v0; v1] J p = Ok av ->
      Delta pol t k [q0; q1] [v0; v1] (map f64_ltb0 av) p = Ok D ->
      R_ pol t k [q0; q1] [v0; v1] J p
      = Ok ([q0; q1], mvmul D [v0; v1], J)) /\
  (forall q' dq' J',
      R_ pol t k [q0; q1] [v0; v1] J p = Ok (q', dq', J') ->
      q' = [q0; q1] /\ J' = J /\
      exists av D,
        a t k [q0; q1] [v0; v1] J p = Ok av /\
        Delta pol t k [q0; q1] [v0; v1] (map f64_ltb0 av) p = Ok D /\
        dq' = mvmul D [v0; v1]).
Proof.
  split.
  - intros av D. apply R_of_parts.
  - intros q' dq' J'. unfold R_.
    destruct (a t k [q0; q1] [v0; v1] J p) as [av|e]; [|discriminate].
    cbn [bind].
    destruct (Delta pol t k [q0; q1] [v0; v1] (map f64_ltb0 av) p)
      as [D|e] eqn:HD; [|discriminate].
    cbn [bind]. unfold matvec.
    rewrite (Delta_shape _ _ _ _ _ _ _ _ HD). cbn [length Nat.eqb bind].
    intros [= <- <- <-]. split; [reflexivity|]. split; [reflexivity|].
    exists av, D. split; [reflexivity|]. split; [exact HD|reflexivity].
Qed.

(** A configuration past both contacts under the nominal parameters. *)
Definition penetrated_configuration : vector := [-1; 5].

Lemma nominal_a_penetrated dq J :
  exists a0 a1,
    a 0 0 penetrated_configuration dq J nominal_parameters
    = Ok [Fin a0; Fin a1] /\
    map f64_ltb0 [Fin a0; Fin a1] = [true; true].
Proof.
  exists (-1), (- 5 + acos (- coef_d nominal_parameters
                           / coef_b nominal_parameters)).
  split.
  - apply a_in_domain.
    + rewrite nominal_coef_b. lra.
    + rewrite nominal_coef_b, nominal_coef_d. rewrite Rabs_pos_eq; lra.
  - cbn [map f64_ltb0].
    pose proof (acos_bound (- coef_d nominal_parameters
                            / coef_b nominal_parameters)) as [_ Hu].
    pose proof PI_4.
    destruct (Rlt_dec (-1) 0) as [_|N]; [|lra].
    destruct (Rlt_dec _ 0) as [_|N]; [reflexivity|lra].
Qed.

Lemma nominal_det_nonzero (q1 : R) :
  (coef_a nominal_parameters + 2 * coef_b nominal_parameters * cos q1)
  * coef_d nominal_parameters
  - (coef_d nominal_parameters + coef_b nominal_parameters * cos q1)
    * (coef_d nominal_parameters + coef_b nominal_parameters * cos q1) <> 0.
Proof. apply (valid_nonzero nominal_parameters q1 nominal_valid). Qed.

Lemma R_impact_map_witness :
  R_ AcceptEmpty 0 0 penetrated_configuration [-1; 1] [false; false]
     nominal_parameters
  = Ok (penetrated_configuration,
        mvmul (mkMatrix 2 [[- gamma nominal_parameters; 0];
                           [0; - gamma nominal_parameters]]) [-1; 1],
        [false; false]).
Proof.
  destruct (nominal_a_penetrated [-1; 1] [false; false])
    as (a0 & a1 & Ha & HJ).
  apply (proj1 (R_impact_map AcceptEmpty 0 0 (-1) 5 (-1) 1 [false; false]
                  nominal_parameters) [Fin a0; Fin a1]).
  - exact Ha.
  - rewrite HJ. apply Delta_TT. apply nominal_det_nonzero.
Defined.

(** C10: when [M] is invertible and both contacts are active the
    projector is [- gamma I], whatever the mass matrix; so an impact
    whose constraint values are both negative returns [- gamma dq]. *)
Theorem Delta_both_active pol t k q0 q1 dq v0 v1 J p Mq :
  M t k [q0; q1] [true; true] p = Ok Mq ->
  det Mq <> 0 ->
  Delta pol t k [q0; q1] dq [true; true] p
  = Ok (scale (- gamma p) (identity 2)) /\
  (forall av,
      a t k [q0; q1] [v0; v1] J p = Ok av ->
      map f64_ltb0 av = [true; true] ->
      R_ pol t k [q0; q1] [v0; v1] J p
      = Ok ([q0; q1], map (Rmult (- gamma p)) [v0; v1], J)).
Proof.
  rewrite M_pair. intros [= <-]. rewrite det_2x2. intros Hd.
  assert (HTT : forall dq',
             Delta pol t k [q0; q1] dq' [true; true] p
             = Ok (scale (- gamma p) (identity 2))).
  { intros dq'. rewrite Delta_TT by exact Hd.
    arr_compute. arr_eq; ring. }
  split; [apply HTT|].
  intros av Ha HJ.
  pose proof (HTT [v0; v1]) as HD. rewrite <- HJ in HD.
  rewrite (R_of_parts pol t k q0 q1 v0 v1 J p av _ Ha HD).
  arr_compute. arr_eq; ring.
Qed.

Lemma Delta_both_active_witness :
  Delta AcceptEmpty 0 0 penetrated_configuration [-1; 1] [true; true]
        nominal_parameters
  = Ok (scale (- gamma nominal_parameters) (identity 2)) /\
  R_ AcceptEmpty 0 0 penetrated_configuration [-1; 1] [false; false]
     nominal_parameters
  = Ok (penetrated_configuration,
        map (Rmult (- gamma nominal_parameters)) [-1; 1],
        [false; false]).
Proof.
  destruct (nominal_a_penetrated [-1; 1] [false; false])
    as (a0 & a1 & Ha & HJ).
  assert (Hd : det (mkMatrix 2
                      [[coef_a nominal_parameters
                        + 2 * coef_b nominal_parameters * cos 5;
                        coef_d nominal_parameters
                        + coef_b nominal_parameters * cos 5];
                       [coef_d nominal_parameters
                        + coef_b nominal_parameters * cos 5;
                        coef_d nominal_parameters]]) <> 0).
  { rewrite det_2x2. apply nominal_det_nonzero. }
  destruct (Delta_both_active AcceptEmpty 0 0 (-1) 5 [-1; 1] (-1) 1
              [false; false] nominal_parameters _ eq_refl Hd) as [HD HR].
  split; [exact HD|]. exact (HR _ Ha HJ).
Defined.

(** ** No active contact *)

(** C4, as the code has it: [Delta] has no check of its own.  With no
    active contact [Da] has no row, [Da Minv Da^T] is the array of shape
    [(0, 0)], and [Delta] raises exactly when [la.inv] rejects that
    array; when [la.inv] returns it, [Delta] returns the identity.
    Every other active set gives [Da] independent rows, and [Delta]
    returns for valid parameters. *)
Theorem Delta_no_active_contact t k q0 q1 dq p :
  valid_params p ->
  Da t k [q0; q1] dq [false; false] p = Ok (empty_rows 2) /\
  Delta RejectEmpty t k [q0; q1] dq [false; false] p = Raise ValueError /\
  Delta AcceptEmpty t k [q0; q1] dq [false; false] p = Ok (identity 2) /\
  (forall pol (j0 j1 : bool),
      j0 || j1 = true ->
      returns (Delta pol t k [q0; q1] dq [j0; j1] p)).
Proof.
  intros Hp. destruct (valid_nonzero p q1 Hp) as (Hd & Hx & Hw).
  split; [reflexivity|].
  split; [apply Delta_FF_reject; exact Hd|].
  split; [apply Delta_FF_accept; exact Hd|].
  intros pol j0 j1 HJ. destruct j0, j1; try discriminate HJ.
  - eexists. apply Delta_TT; exact Hd.
  - eexists. apply Delta_TF; assumption.
  - eexists. apply Delta_FT; assumption.
Qed.

Lemma Delta_no_active_contact_witness :
  Da 0 0 [0; 0] [-1; 1] [false; false] nominal_parameters
  = Ok (empty_rows 2) /\
  Delta RejectEmpty 0 0 [0; 0] [-1; 1] [false; false] nominal_parameters
  = Raise ValueError /\
  Delta AcceptEmpty 0 0 [0; 0] [-1; 1] [false; false] nominal_parameters
  = Ok (identity 2) /\
  (forall pol (j0 j1 : bool),
      j0 || j1 = true ->
      returns (Delta pol 0 0 [0; 0] [-1; 1] [j0; j1] nominal_parameters)).
Proof.
  apply (Delta_no_active_contact 0 0 0 0 [-1; 1] nominal_parameters).
  unfold valid_params, nominal_parameters; cbn [m0 m1 l0 l1].
  repeat split; lra.
Defined.

(** C4 as the spec states it fails when [la.inv] returns the empty
    array for the empty array: with the nominal parameters and no active
    contact [Delta] returns the identity instead of failing. *)
Lemma Delta_returns_without_contact :
  Delta AcceptEmpty 0 0 [0; 0] [-1; 1] [false; false] nominal_parameters
  = Ok (identity 2) /\
  ~ raises (Delta AcceptEmpty 0 0 [0; 0] [-1; 1] [false; false]
              nominal_parameters).
Proof.
  assert (H : Delta AcceptEmpty 0 0 [0; 0] [-1; 1] [false; false]
                nominal_parameters = Ok (identity 2)).
  { apply Delta_FF_accept. apply nominal_det_nonzero. }
  split; [exact H|]. rewrite H. intros [e He]. discriminate He.
Qed.

(** * The rest of the class *)

(** ** Further methods *)

Module DoublePendulumMore.

(** The dict that [O] builds, with its keys ['q'], ['dq'] and ['g']. *)
Record observation : Type := mkObservation {
  o_q : vector;
  o_dq : vector;
  o_g : list float64
}.

(** The method [O]. *)
Definition O_ (t : R) (k : Z) (q dq : vector) (J : list bool) (p : params)
  : result observation :=
  g <- G t k q dq J p ;;
  Ok (mkObservation q dq g).

Definition simultaneous_impact_configuration (p : params)
  : result (list float64) :=
  let b := m1 p * l0 p * l1 p / 2 in
  let d := m1 p * l1 p ^ 2 / 3 + m1 p * (l1 p / 2) ^ 2 in
  x <- py_div (- d) b ;;
  Ok [Fin 0; np_arccos x].

(** The rotation about the z axis that [draw_config] defines. *)
Definition Rot (theta : R) : matrix :=
  np_array [[cos theta; - sin theta]; [sin theta; cos theta]].

(** [u + v] on one-dimensional arrays of equal length. *)
Definition vec_add (u v : vector) : result vector :=
  if (length u =? length v)%nat then Ok (vadd u v) else Raise ValueError.

(** The points that [draw_config] computes and joins with lines: the
    origin, the tip [P1] of link 0, the tip [P2] of link 1 and, when
    [draw_a1] holds, the end [PC] of the constraint line.  A contact
    angle that is [nan] makes both cells of [PC] [nan].  The drawing
    itself is not modelled. *)
Definition draw_config_points (q : vector) (p : params) (draw_a1 : bool)
  : result (vector * vector * vector * option (list float64)) :=
  let O := [0; 0] in
  q0 <- getitem q 0 ;;
  let P1 := [cos q0 * l0 p; sin q0 * l0 p] in
  q1 <- getitem q 1 ;;
  u <- matvec (Rot q0) [cos q1 * l1 p; sin q1 * l1 p] ;;
  P2 <- vec_add u P1 ;;
  if draw_a1 then
    let b := m1 p * l0 p * l1 p / 2 in
    let d := m1 p * l1 p ^ 2 / 3 + m1 p * (l1 p / 2) ^ 2 in
    x <- py_div (- d) b ;;
    match np_arccos x with
    | Fin theta =>
        u' <- matvec (Rot q0)
                [cos theta * l1 p / 2; sin theta * l1 p / 2] ;;
        PC <- vec_add u' P1 ;;
        Ok (O, P1, P2, Some (map Fin PC))
    | NaN => Ok (O, P1, P2, Some [NaN; NaN])
    end
  else Ok (O, P1, P2, None).

End DoublePendulumMore.

Import DoublePendulumMore.

(** ** Notions used by the statements *)

(** The quadratic form [v^T A v]; twice the kinetic energy when [A] is
    the mass matrix and [v] the velocity. *)
Definition quad (A : matrix) (v : vector) : R := dot v (mvmul A v).

(** The squared distance between two points. *)
Definition dist2 (u v : vector) : R :=
  dot (vadd u (map Ropp v)) (vadd u (map Ropp v)).

(** The array a call returns, or the empty array when it raises. *)
Definition value_of (r : result matrix) : matrix :=
  match r with
  | Ok A => A
  | Raise _ => mkMatrix 0 []
  end.

(** * Further properties *)

(** ** Which inputs raise *)

Lemma getitem_returns {A : Type} (l : list A) (i : nat) :
  returns (getitem l i) <-> (i < length l)%nat.
Proof.
  unfold getitem, returns. split.
  - intros [x Hx]. apply nth_error_Some.
    destruct (nth_error l i); [discriminate|discriminate Hx].
  - intros Hi. apply nth_error_Some in Hi.
    destruct (nth_error l i) as [x|]; [exists x; reflexivity|congruence].
Qed.

Lemma getitem_short {A : Type} (l : list A) (i : nat) :
  (length l <= i)%nat -> getitem l i = Raise IndexError.
Proof.
  intros Hi. unfold getitem. apply nth_error_None in Hi. rewrite Hi.
  reflexivity.
Qed.

Lemma getitem_long {A : Type} (l : list A) (i : nat) :
  (i < length l)%nat -> exists x, getitem l i = Ok x.
Proof. intros Hi. apply getitem_returns. exact Hi. Qed.

(** X1: [M], [C], [a] and [Da] return exactly on inputs that are long
    enough (and, for [a], when [b <> 0]): [M] needs [q[1]], [C] needs
    [q[1]], [dq[0]] and [dq[1]], [a] needs [q[0]], [q[1]] and a non-zero
    [b], [Da] needs [J[0]] and [J[1]]. *)
Theorem methods_return_iff t k q dq J p :
  (returns (M t k q J p) <-> (2 <= length q)%nat) /\
  (returns (C t k q dq J p) <->
   (2 <= length q)%nat /\ (2 <= length dq)%nat) /\
  (returns (a t k q dq J p) <-> (2 <= length q)%nat /\ coef_b p <> 0) /\
  (returns (Da t k q dq J p) <-> (2 <= length J)%nat).
Proof.
  split; [|split; [|split]].
  - unfold M. split.
    + intros [A HA]. destruct (getitem q 1) eqn:E; [|discriminate HA].
      apply (getitem_returns q 1). eexists; exact E.
    + intros Hq. destruct (getitem_long q 1 Hq) as [x ->].
      eexists; reflexivity.
  - unfold C. split.
    + intros [A HA].
      destruct (getitem q 1) eqn:E1; [|discriminate HA]. cbn [bind] in HA.
      destruct (getitem dq 1) eqn:E2; [|discriminate HA].
      split; [apply (getitem_returns q 1)|apply (getitem_returns dq 1)];
        eexists; eassumption.
    + intros [Hq Hdq].
      destruct (getitem_long q 1 Hq) as [x ->].
      destruct (getitem_long dq 1 Hdq) as [v1 ->].
      destruct (getitem_long dq 0) as [v0 ->]; [lia|].
      eexists; reflexivity.
  - unfold a, py_div. split.
    + intros [A HA].
      destruct (getitem q 0) eqn:E0; [|discriminate HA]. cbn [bind] in HA.
      destruct (getitem q 1) eqn:E1; [|discriminate HA]. cbn [bind] in HA.
      destruct (Req_dec_T (coef_b p) 0) as [Z|N]; [discriminate HA|].
      split; [apply (getitem_returns q 1); eexists; exact E1|exact N].
    + intros [Hq Hb].
      destruct (getitem_long q 0) as [x0 ->]; [lia|].
      destruct (getitem_long q 1 Hq) as [x1 ->]. cbn [bind].
      destruct (Req_dec_T (coef_b p) 0) as [Z|N]; [contradiction|].
      eexists; reflexivity.
  - unfold Da. split.
    + intros [A HA].
      destruct (getitem J 0) eqn:E0; [|discriminate HA]. cbn [bind] in HA.
      destruct (getitem J 1) eqn:E1; [|discriminate HA].
      apply (getitem_returns J 1). eexists; exact E1.
    + intros HJ.
      destruct (getitem_long J 0) as [j0 ->]; [lia|].
      destruct (getitem_long J 1 HJ) as [j1 ->]. cbn [bind].
      destruct (0 <? _)%nat; eexists; reflexivity.
Qed.

Lemma getitem_cases {A : Type} (l : list A) (i : nat) :
  (exists x, getitem l i = Ok x) \/ getitem l i = Raise IndexError.
Proof.
  unfold getitem. destruct (nth_error l i) as [x|]; [left|right].
  - exists x; reflexivity.
  - reflexivity.
Qed.

(** X2: a configuration that is too short makes each method that reads it
    raise [IndexError], and [ddq], [Delta] and the impact map pass the
    exception on. *)
Theorem short_configuration_raises pol t k q dq J p :
  (length q < 2)%nat ->
  M t k q J p = Raise IndexError /\
  C t k q dq J p = Raise IndexError /\
  a t k q dq J p = Raise IndexError /\
  ddq pol t k q dq J p = Raise IndexError /\
  Delta pol t k q dq J p = Raise IndexError /\
  R_ pol t k q dq J p = Raise IndexError.
Proof.
  intros Hq.
  assert (H1 : getitem q 1 = Raise IndexError) by (apply getitem_short; lia).
  assert (HM : M t k q J p = Raise IndexError).
  { unfold M. rewrite H1. reflexivity. }
  assert (Ha : a t k q dq J p = Raise IndexError).
  { unfold a. destruct (getitem_cases q 0) as [[x ->]| ->]; cbn [bind].
    - rewrite H1. reflexivity.
    - reflexivity. }
  split; [exact HM|]. split.
  { unfold C. rewrite H1. reflexivity. }
  split; [exact Ha|]. split.
  { unfold ddq. rewrite HM. reflexivity. }
  split.
  { unfold Delta. rewrite HM. reflexivity. }
  unfold R_. rewrite Ha. reflexivity.
Qed.

Lemma short_configuration_raises_witness :
  M 0 0 [1] [false; false] nominal_parameters = Raise IndexError /\
  C 0 0 [1] [-1; 1] [false; false] nominal_parameters = Raise IndexError /\
  a 0 0 [1] [-1; 1] [false; false] nominal_parameters = Raise IndexError /\
  ddq AcceptEmpty 0 0 [1] [-1; 1] [false; false] nominal_parameters
  = Raise IndexError /\
  Delta AcceptEmpty 0 0 [1] [-1; 1] [false; false] nominal_parameters
  = Raise IndexError /\
  R_ AcceptEmpty 0 0 [1] [-1; 1] [false; false] nominal_parameters
  = Raise IndexError.
Proof.
  apply (short_configuration_raises AcceptEmpty 0 0 [1] [-1; 1]
           [false; false] nominal_parameters).
  cbn [length]. lia.
Defined.

(** ** The mass matrix is positive definite *)

Lemma quad_2x2 (x y w v0 v1 : R) :
  quad (mkMatrix 2 [[x; y]; [y; w]]) [v0; v1]
  = x * (v0 * v0) + 2 * y * (v0 * v1) + w * (v1 * v1).
Proof. unfold quad. arr_compute. ring. Qed.

Lemma quad_pos (x y w v0 v1 : R) :
  0 < w -> 0 < x * w - y * y ->
  v0 <> 0 \/ v1 <> 0 ->
  0 < x * (v0 * v0) + 2 * y * (v0 * v1) + w * (v1 * v1).
Proof.
  intros Hw Hd Hv.
  assert (Hid : w * (x * (v0 * v0) + 2 * y * (v0 * v1) + w * (v1 * v1))
                = (w * v1 + y * v0) * (w * v1 + y * v0)
                  + (x * w - y * y) * (v0 * v0)) by ring.
  assert (H1 : 0 <= (w * v1 + y * v0) * (w * v1 + y * v0))
    by apply Rle_0_sqr.
  assert (H2 : 0 <= (x * w - y * y) * (v0 * v0))
    by (apply Rmult_le_pos; [lra|apply Rle_0_sqr]).
  assert (Hp : 0 < w * (x * (v0 * v0) + 2 * y * (v0 * v1) + w * (v1 * v1))).
  { rewrite Hid. destruct (Req_dec_T v0 0) as [Z|N].
    - subst v0. destruct Hv as [Hv|Hv]; [contradiction Hv; reflexivity|].
      assert (0 < (w * v1) * (w * v1)).
      { apply Rsqr_pos_lt. apply Rmult_integral_contrapositive_currified;
          [lra|exact Hv]. }
      replace (w * v1 + y * 0) with (w * v1) by ring. nra.
    - assert (0 < v0 * v0) by (apply Rsqr_pos_lt; exact N).
      assert (0 < (x * w - y * y) * (v0 * v0))
        by (apply Rmult_lt_0_compat; assumption).
      lra. }
  destruct (Rlt_le_dec 0
              (x * (v0 * v0) + 2 * y * (v0 * v1) + w * (v1 * v1)))
    as [Hq|Hq]; [exact Hq|exfalso].
  assert (w * (x * (v0 * v0) + 2 * y * (v0 * v1) + w * (v1 * v1)) <= 0)
    by nra.
  lra.
Qed.

(** X3: for positive masses and lengths the mass matrix is positive
    definite at every configuration: its determinant and its first
    entry are positive and [v^T M v > 0] for every non-zero [v]. *)
Theorem M_positive_definite t k q0 q1 J p :
  valid_params p ->
  exists Mq,
    M t k [q0; q1] J p = Ok Mq /\
    0 < det Mq /\
    0 < entry 0 0 Mq /\
    forall v0 v1, v0 <> 0 \/ v1 <> 0 -> 0 < quad Mq [v0; v1].
Proof.
  intros Hp. eexists. split; [apply M_pair|].
  pose proof (M_det_pos p q1 Hp) as Hd.
  pose proof (M_00_pos p q1 Hp) as Hx.
  pose proof (coef_d_pos p Hp) as Hw.
  split; [rewrite det_2x2; exact Hd|].
  split; [exact Hx|].
  intros v0 v1 Hv. rewrite quad_2x2. apply quad_pos; assumption.
Qed.

Lemma M_positive_definite_witness :
  exists Mq,
    M 0 0 [0; 0] [false; false] nominal_parameters = Ok Mq /\
    0 < det Mq /\
    0 < entry 0 0 Mq /\
    forall v0 v1, v0 <> 0 \/ v1 <> 0 -> 0 < quad Mq [v0; v1].
Proof.
  apply (M_positive_definite 0 0 0 0 [false; false] nominal_parameters).
  unfold valid_params, nominal_parameters; cbn [m0 m1 l0 l1].
  repeat split; lra.
Defined.

(** ** The free acceleration *)

Lemma ddq_pair pol t k q0 q1 v0 v1 J p :
  (coef_a p + 2 * coef_b p * cos q1) * coef_d p
  - (coef_d p + coef_b p * cos q1) * (coef_d p + coef_b p * cos q1) <> 0 ->
  ddq pol t k [q0; q1] [v0; v1] J p
  = Ok (mvmul
          (mkMatrix 2
             [[coef_d p; - (coef_d p + coef_b p * cos q1)];
              [- (coef_d p + coef_b p * cos q1);
               coef_a p + 2 * coef_b p * cos q1]])
          [coef_b p * sin q1 * (v1 * (2 * v0 + v1))
           / ((coef_a p + 2 * coef_b p * cos q1) * coef_d p
              - (coef_d p + coef_b p * cos q1)
                * (coef_d p + coef_b p * cos q1));
           - (coef_b p * sin q1 * (v0 * v0))
           / ((coef_a p + 2 * coef_b p * cos q1) * coef_d p
              - (coef_d p + coef_b p * cos q1)
                * (coef_d p + coef_b p * cos q1))]).
Proof.
  intros Hd. unfold ddq. rewrite M_pair, C_pair. cbn [bind].
  rewrite la_inv_2x2 by exact Hd.
  set (x := coef_a p + 2 * coef_b p * cos q1) in *.
  set (y := coef_d p + coef_b p * cos q1) in *.
  set (w := coef_d p) in *.
  set (s := coef_b p * sin q1) in *.
  replace (- coef_b p * sin q1) with (- s) by (unfold s; ring).
  clearbody x y w s.
  arr_compute. arr_eq; field; exact Hd.
Qed.

(** X4: for positive masses and lengths [ddq] never raises on a pair of
    angles and a pair of velocities, and its value is homogeneous of
    degree two in the velocity; at rest the acceleration is zero. *)
Theorem ddq_total_homogeneous pol t k q0 q1 v0 v1 J p :
  valid_params p ->
  exists acc0 acc1,
    ddq pol t k [q0; q1] [v0; v1] J p = Ok [acc0; acc1] /\
    (forall c,
        ddq pol t k [q0; q1] [c * v0; c * v1] J p
        = Ok [c * c * acc0; c * c * acc1]) /\
    ddq pol t k [q0; q1] [0; 0] J p = Ok [0; 0].
Proof.
  intros Hp. destruct (valid_nonzero p q1 Hp) as (Hd & _ & _).
  eexists. eexists. split; [rewrite ddq_pair by exact Hd; reflexivity|].
  split.
  - intros c. rewrite ddq_pair by exact Hd.
    arr_compute. arr_eq; field; exact Hd.
  - rewrite ddq_pair by exact Hd.
    arr_compute. arr_eq; field; exact Hd.
Qed.

Lemma ddq_total_homogeneous_witness :
  exists acc0 acc1,
    ddq AcceptEmpty 0 0 [0; 1] [-1; 1] [false; false] nominal_parameters
    = Ok [acc0; acc1] /\
    (forall c,
        ddq AcceptEmpty 0 0 [0; 1] [c * -1; c * 1] [false; false]
            nominal_parameters
        = Ok [c * c * acc0; c * c * acc1]) /\
    ddq AcceptEmpty 0 0 [0; 1] [0; 0] [false; false] nominal_parameters
    = Ok [0; 0].
Proof.
  apply (ddq_total_homogeneous AcceptEmpty 0 0 0 1 (-1) 1 [false; false]
           nominal_parameters).
  unfold valid_params, nominal_parameters; cbn [m0 m1 l0 l1].
  repeat split; lra.
Defined.

(** X5: a vanishing [m1], [l0] or [l1] makes the mass matrix singular at
    every configuration, and [ddq] raises [LinAlgError]. *)
Theorem ddq_degenerate_parameters pol t k q0 q1 v0 v1 J p :
  m1 p = 0 \/ l0 p = 0 \/ l1 p = 0 ->
  ddq pol t k [q0; q1] [v0; v1] J p = Raise LinAlgError.
Proof.
  intros H. apply ddq_singular.
  unfold coef_a, coef_b, coef_d. cbn [pow].
  destruct H as [H|[H|H]]; rewrite H; field.
Qed.

Lemma ddq_degenerate_parameters_witness :
  ddq AcceptEmpty 0 0 [0; 1] [-1; 1] [false; false] (mkParams 1 0 1 1 0)
  = Raise LinAlgError.
Proof.
  apply (ddq_degenerate_parameters AcceptEmpty 0 0 0 1 (-1) 1
           [false; false] (mkParams 1 0 1 1 0)).
  left. reflexivity.
Defined.

(** ** The constraint Jacobian *)

(** X6: the rows that [Da] returns are orthonormal, hence independent: for
    every pair of flags [Da Da^T] is the identity of size the number of
    active contacts. *)
Theorem Da_rows_orthonormal t k q0 q1 dq (j0 j1 : bool) p :
  exists DA,
    Da t k [q0; q1] dq [j0; j1] p = Ok DA /\
    nrows DA = ((if j0 then 1 else 0) + (if j1 then 1 else 0))%nat /\
    matmul DA (transpose DA) = Ok (identity (nrows DA)).
Proof.
  eexists. split; [apply Da_pair|].
  destruct j0, j1; (split; [reflexivity|]); arr_compute; arr_eq; ring.
Qed.

(** ** The projector as a restitution law *)

Lemma Delta_cases pol t k q0 q1 dq (j0 j1 : bool) p :
  valid_params p ->
  j0 || j1 = true ->
  exists x y w,
    0 < x /\ 0 < w /\ 0 < x * w - y * y /\
    M t k [q0; q1] [j0; j1] p = Ok (mkMatrix 2 [[x; y]; [y; w]]) /\
    Delta pol t k [q0; q1] dq [j0; j1] p
    = Ok (mkMatrix 2
            (if j0 then
               if j1 then [[- gamma p; 0]; [0; - gamma p]]
               else [[- gamma p; 0]; [(1 + gamma p) * y / w; 1]]
             else [[1; (1 + gamma p) * y / x]; [0; - gamma p]])).
Proof.
  intros Hp HJ.
  pose proof (M_det_pos p q1 Hp) as Hd.
  pose proof (M_00_pos p q1 Hp) as Hx.
  pose proof (coef_d_pos p Hp) as Hw.
  exists (coef_a p + 2 * coef_b p * cos q1),
         (coef_d p + coef_b p * cos q1), (coef_d p).
  split; [exact Hx|]. split; [exact Hw|]. split; [exact Hd|].
  split; [apply M_pair|].
  destruct j0, j1; try discriminate HJ.
  - apply Delta_TT. lra.
  - apply Delta_TF; lra.
  - apply Delta_FT; lra.
Qed.

(** X7: Newton's restitution law: for positive masses and lengths, any
    [gamma] and at least one active contact, the velocity after the
    projection has along each active constraint row [- gamma] times the
    component it had before: [Da (Delta dq) = - gamma (Da dq)]. *)
Theorem Delta_restitution pol t k q0 q1 v0 v1 (j0 j1 : bool) p :
  valid_params p ->
  j0 || j1 = true ->
  exists D DA,
    Delta pol t k [q0; q1] [v0; v1] [j0; j1] p = Ok D /\
    Da t k [q0; q1] [v0; v1] [j0; j1] p = Ok DA /\
    (u <- matvec D [v0; v1] ;; matvec DA u)
    = Ok (map (Rmult (- gamma p)) (mvmul DA [v0; v1])).
Proof.
  intros Hp HJ.
  destruct (Delta_cases pol t k q0 q1 [v0; v1] j0 j1 p Hp HJ)
    as (x & y & w & Hx & Hw & Hd & _ & HD).
  eexists. eexists. split; [exact HD|]. split; [apply Da_pair|].
  generalize (gamma p). intros g.
  destruct j0, j1; try discriminate HJ;
    arr_compute; arr_eq; field; lra.
Qed.

Lemma Delta_restitution_witness :
  exists D DA,
    Delta AcceptEmpty 0 0 [0; 0] [-1; 1] [true; false] nominal_parameters
    = Ok D /\
    Da 0 0 [0; 0] [-1; 1] [true; false] nominal_parameters = Ok DA /\
    (u <- matvec D [-1; 1] ;; matvec DA u)
    = Ok (map (Rmult (- gamma nominal_parameters)) (mvmul DA [-1; 1])).
Proof.
  apply (Delta_restitution AcceptEmpty 0 0 0 0 (-1) 1 true false
           nominal_parameters).
  - unfold valid_params, nominal_parameters; cbn [m0 m1 l0 l1].
    repeat split; lra.
  - reflexivity.
Defined.

(** X8: the projector satisfies [Delta^2 = (1 - gamma) Delta + gamma I]: it
    is idempotent for [gamma = 0] and an involution for [gamma = 1]. *)
Theorem Delta_square pol t k q0 q1 dq (j0 j1 : bool) p :
  valid_params p ->
  j0 || j1 = true ->
  exists D,
    Delta pol t k [q0; q1] dq [j0; j1] p = Ok D /\
    mmul D D = madd (scale (1 - gamma p) D) (scale (gamma p) (identity 2)) /\
    (gamma p = 0 -> mmul D D = D) /\
    (gamma p = 1 -> mmul D D = identity 2).
Proof.
  intros Hp HJ.
  destruct (Delta_cases pol t k q0 q1 dq j0 j1 p Hp HJ)
    as (x & y & w & Hx & Hw & Hd & _ & HD).
  eexists. split; [exact HD|].
  generalize (gamma p). intros g.
  destruct j0, j1; try discriminate HJ;
    (split; [|split]);
    try (intros ->); arr_compute; arr_eq; field; lra.
Qed.

Lemma Delta_square_witness :
  exists D,
    Delta AcceptEmpty 0 0 [0; 0] [-1; 1] [false; true] nominal_parameters
    = Ok D /\
    mmul D D = madd (scale (1 - gamma nominal_parameters) D)
                    (scale (gamma nominal_parameters) (identity 2)) /\
    (gamma nominal_parameters = 0 -> mmul D D = D) /\
    (gamma nominal_parameters = 1 -> mmul D D = identity 2).
Proof.
  apply (Delta_square AcceptEmpty 0 0 0 0 [-1; 1] false true
           nominal_parameters).
  - unfold valid_params, nominal_parameters; cbn [m0 m1 l0 l1].
    repeat split; lra.
  - reflexivity.
Defined.

(** X9: an impact does not create kinetic energy: for positive masses and
    lengths, [-1 <= gamma <= 1] and at least one active contact,
    [(Delta dq)^T M (Delta dq) <= dq^T M dq], with equality for
    [gamma = 1]. *)
Theorem Delta_energy pol t k q0 q1 v0 v1 (j0 j1 : bool) p :
  valid_params p ->
  j0 || j1 = true ->
  -1 <= gamma p <= 1 ->
  exists Mq D,
    M t k [q0; q1] [j0; j1] p = Ok Mq /\
    Delta pol t k [q0; q1] [v0; v1] [j0; j1] p = Ok D /\
    quad Mq (mvmul D [v0; v1]) <= quad Mq [v0; v1] /\
    (gamma p = 1 -> quad Mq (mvmul D [v0; v1]) = quad Mq [v0; v1]).
Proof.
  intros Hp HJ Hg.
  destruct (Delta_cases pol t k q0 q1 [v0; v1] j0 j1 p Hp HJ)
    as (x & y & w & Hx & Hw & Hd & HM & HD).
  eexists. eexists. split; [exact HM|]. split; [exact HD|].
  revert Hg. generalize (gamma p). intros g Hg.
  assert (Hg2 : 0 <= 1 - g * g) by nra.
  assert (Hq : 0 <= x * (v0 * v0) + 2 * y * (v0 * v1) + w * (v1 * v1)).
  { destruct (Req_dec_T v0 0) as [Z0|N0].
    - destruct (Req_dec_T v1 0) as [Z1|N1].
      + subst. right. ring.
      + left. apply quad_pos; auto.
    - left. apply quad_pos; auto. }
  destruct j0, j1; try discriminate HJ; cbv beta iota.
  - assert (E : quad (mkMatrix 2 [[x; y]; [y; w]])
                  (mvmul (mkMatrix 2 [[- g; 0]; [0; - g]]) [v0; v1])
                = quad (mkMatrix 2 [[x; y]; [y; w]]) [v0; v1]
                  - (1 - g * g)
                    * (x * (v0 * v0) + 2 * y * (v0 * v1) + w * (v1 * v1))).
    { unfold quad. arr_compute. ring. }
    split.
    + rewrite E.
      assert (0 <= (1 - g * g)
                   * (x * (v0 * v0) + 2 * y * (v0 * v1) + w * (v1 * v1)))
        by (apply Rmult_le_pos; assumption).
      lra.
    + intros ->. rewrite E. ring.
  - assert (E : quad (mkMatrix 2 [[x; y]; [y; w]])
                  (mvmul (mkMatrix 2 [[- g; 0]; [(1 + g) * y / w; 1]])
                         [v0; v1])
                = quad (mkMatrix 2 [[x; y]; [y; w]]) [v0; v1]
                  - (1 - g * g) * ((x * w - y * y) / w * (v0 * v0))).
    { unfold quad. arr_compute. field. lra. }
    split.
    + rewrite E.
      assert (0 <= (1 - g * g) * ((x * w - y * y) / w * (v0 * v0))).
      { apply Rmult_le_pos; [assumption|].
        apply Rmult_le_pos; [|apply Rle_0_sqr].
        apply Rlt_le, Rdiv_lt_0_compat; assumption. }
      lra.
    + intros ->. rewrite E. ring.
  - assert (E : quad (mkMatrix 2 [[x; y]; [y; w]])
                  (mvmul (mkMatrix 2 [[1; (1 + g) * y / x]; [0; - g]])
                         [v0; v1])
                = quad (mkMatrix 2 [[x; y]; [y; w]]) [v0; v1]
                  - (1 - g * g) * ((x * w - y * y) / x * (v1 * v1))).
    { unfold quad. arr_compute. field. lra. }
    split.
    + rewrite E.
      assert (0 <= (1 - g * g) * ((x * w - y * y) / x * (v1 * v1))).
      { apply Rmult_le_pos; [assumption|].
        apply Rmult_le_pos; [|apply Rle_0_sqr].
        apply Rlt_le, Rdiv_lt_0_compat; assumption. }
      lra.
    + intros ->. rewrite E. ring.
Qed.

Lemma Delta_energy_witness :
  exists Mq D,
    M 0 0 [0; 0] [true; false] nominal_parameters = Ok Mq /\
    Delta AcceptEmpty 0 0 [0; 0] [-1; 1] [true; false] nominal_parameters
    = Ok D /\
    quad Mq (mvmul D [-1; 1]) <= quad Mq [-1; 1] /\
    (gamma nominal_parameters = 1 ->
     quad Mq (mvmul D [-1; 1]) = quad Mq [-1; 1]).
Proof.
  apply (Delta_energy AcceptEmpty 0 0 0 0 (-1) 1 true false
           nominal_parameters).
  - unfold valid_params, nominal_parameters; cbn [m0 m1 l0 l1].
    repeat split; lra.
  - reflexivity.
  - unfold nominal_parameters; cbn [gamma]. lra.
Defined.

(** ** Shapes *)

Lemma matmul_shape A B X :
  matmul A B = Ok X ->
  ncols A = nrows B /\ nrows X = nrows A /\ ncols X = ncols B.
Proof.
  unfold matmul. destruct (ncols A =? nrows B)%nat eqn:E; [|discriminate].
  intros [= <-]. apply Nat.eqb_eq in E.
  split; [exact E|]. split; [|reflexivity].
  unfold nrows, mmul; cbn [rows]. apply length_map.
Qed.

Lemma la_inv_shape pol A B :
  la_inv pol A = Ok B ->
  nrows A = ncols A /\ nrows B = nrows A /\ ncols B = nrows A.
Proof.
  unfold la_inv. destruct (nrows A =? ncols A)%nat eqn:E; [|discriminate].
  apply Nat.eqb_eq in E. cbn [negb].
  destruct (rows A) as [|r rs] eqn:Er.
  - destruct pol; [discriminate|]. intros [= <-].
    split; [exact E|]. split; [reflexivity|]. symmetry; exact E.
  - destruct (Req_dec_T (det A) 0); [discriminate|]. intros [= <-].
    split; [exact E|]. unfold nrows, scale, adjugate; cbn [rows ncols].
    rewrite !length_map, length_seq. split; reflexivity.
Qed.

Lemma radd_length (r s : list (list R)) :
  length r = length s -> length (radd r s) = length r.
Proof.
  revert s. induction r as [|x r IH]; intros [|y s] H;
    try discriminate H; [reflexivity|].
  cbn [radd length]. f_equal. apply IH. injection H as H. exact H.
Qed.

Lemma add_shape A B X :
  add A B = Ok X ->
  nrows A = nrows B /\ ncols A = ncols B /\
  nrows X = nrows A /\ ncols X = ncols A.
Proof.
  unfold add, shape_eqb.
  destruct (nrows A =? nrows B)%nat eqn:E1; [|discriminate].
  destruct (ncols A =? ncols B)%nat eqn:E2; [|discriminate].
  apply Nat.eqb_eq in E1, E2. intros [= <-].
  split; [exact E1|]. split; [exact E2|]. split; [|reflexivity].
  unfold nrows, madd; cbn [rows]. apply radd_length. exact E1.
Qed.

Lemma M_shape t k q J p Mq :
  M t k q J p = Ok Mq -> nrows Mq = 2%nat /\ ncols Mq = 2%nat.
Proof.
  unfold M. destruct (getitem q 1); [|discriminate].
  intros [= <-]. split; reflexivity.
Qed.

Lemma Da_shape t k q dq J p DA :
  Da t k q dq J p = Ok DA ->
  ncols DA = 2%nat \/ (nrows DA = 0%nat /\ ncols DA = length q).
Proof.
  unfold Da.
  destruct (getitem J 0) as [j0|]; [|discriminate]. cbn [bind].
  destruct (getitem J 1) as [j1|]; [|discriminate]. cbn [bind].
  destruct j0, j1; cbn; intros [= <-]; auto.
Qed.

Lemma identity_shape (n : nat) :
  nrows (identity n) = n /\ ncols (identity n) = n.
Proof.
  unfold nrows, identity; cbn [rows ncols].
  rewrite length_map, length_seq. split; reflexivity.
Qed.

Lemma Delta_shape_2x2 pol t k q dq J p D :
  Delta pol t k q dq J p = Ok D ->
  length q = 2%nat /\ nrows D = 2%nat /\ ncols D = 2%nat.
Proof.
  unfold Delta.
  destruct (M t k q J p) as [Mq|] eqn:HM; [|discriminate]. cbn [bind].
  destruct (Da t k q dq J p) as [DA|] eqn:HDa; [|discriminate]. cbn [bind].
  destruct (la_inv pol Mq) as [Minv|] eqn:Hi; [|discriminate]. cbn [bind].
  destruct (matmul DA Minv) as [DM|] eqn:H1; [|discriminate]. cbn [bind].
  destruct (matmul DM (transpose DA)) as [S|] eqn:H2; [|discriminate].
  cbn [bind].
  destruct (la_inv pol S) as [Sinv|] eqn:H3; [|discriminate]. cbn [bind].
  destruct (matmul (scale (1 + gamma p) Minv) (transpose DA))
    as [P1|] eqn:H4; [|discriminate]. cbn [bind].
  destruct (matmul P1 (neg Sinv)) as [P2|] eqn:H5; [|discriminate].
  cbn [bind].
  destruct (matmul P2 DA) as [P3|] eqn:H6; [|discriminate]. cbn [bind].
  intros H7.
  apply M_shape in HM. apply Da_shape in HDa. apply la_inv_shape in Hi.
  apply matmul_shape in H1, H4, H5, H6. apply add_shape in H7.
  destruct (identity_shape (length q)) as [I1 I2].
  unfold nrows in *. cbn [scale rows ncols] in H4.
  rewrite length_map in H4.
  assert (length q = 2%nat) by (destruct HDa as [?|[? ?]]; lia).
  split; [assumption|]. split; lia.
Qed.


(** X10: [Delta] returns only for a configuration of length two, and what it
    returns is a two by two array: with a longer configuration the sum
    with [np.identity(len(q))], or the product with the empty Jacobian,
    raises. *)
Theorem Delta_returns_2x2 pol t k q dq J p D :
  Delta pol t k q dq J p = Ok D ->
  length q = 2%nat /\ shape D = (2%nat, 2%nat).
Proof.
  intros HD. apply Delta_shape_2x2 in HD. destruct HD as (Hq & Hr & Hc).
  split; [exact Hq|]. unfold shape. rewrite Hr, Hc. reflexivity.
Qed.

Lemma Delta_returns_2x2_witness :
  length penetrated_configuration = 2%nat /\
  shape (mkMatrix 2 [[- gamma nominal_parameters; 0];
                     [0; - gamma nominal_parameters]]) = (2%nat, 2%nat).
Proof.
  apply (Delta_returns_2x2 AcceptEmpty 0 0 penetrated_configuration
           [-1; 1] [true; true] nominal_parameters).
  apply Delta_TT. apply nominal_det_nonzero.
Defined.

(** ** The impact map on the contact boundary and in sequence *)

Lemma R_no_contact_accept t k q0 q1 v0 v1 J p av :
  valid_params p ->
  a t k [q0; q1] [v0; v1] J p = Ok av ->
  map f64_ltb0 av = [false; false] ->
  R_ AcceptEmpty t k [q0; q1] [v0; v1] J p = Ok ([q0; q1], [v0; v1], J).
Proof.
  intros Hp Ha HJ. destruct (valid_nonzero p q1 Hp) as (Hd & _ & _).
  assert (HD : Delta AcceptEmpty t k [q0; q1] [v0; v1]
                 (map f64_ltb0 av) p = Ok (identity 2)).
  { rewrite HJ. apply Delta_FF_accept. exact Hd. }
  rewrite (R_of_parts _ _ _ _ _ _ _ _ _ _ _ Ha HD).
  arr_compute. arr_eq; ring.
Qed.

Lemma R_no_contact_reject t k q0 q1 v0 v1 J p av :
  valid_params p ->
  a t k [q0; q1] [v0; v1] J p = Ok av ->
  map f64_ltb0 av = [false; false] ->
  R_ RejectEmpty t k [q0; q1] [v0; v1] J p = Raise ValueError.
Proof.
  intros Hp Ha HJ. destruct (valid_nonzero p q1 Hp) as (Hd & _ & _).
  unfold R_. rewrite Ha. cbn [bind]. rewrite HJ.
  rewrite Delta_FF_reject by exact Hd. reflexivity.
Qed.

(** X11: when no constraint value is negative (both contacts open, or
    exactly touching, since the test is the strict [a < 0]) the impact
    map uses the empty Jacobian: it returns the state unchanged where
    [la.inv] returns the empty array, and raises [ValueError] where
    [la.inv] rejects it. *)
Theorem R_without_penetration t k q0 q1 v0 v1 J p av :
  valid_params p ->
  a t k [q0; q1] [v0; v1] J p = Ok av ->
  map f64_ltb0 av = [false; false] ->
  R_ AcceptEmpty t k [q0; q1] [v0; v1] J p = Ok ([q0; q1], [v0; v1], J) /\
  R_ RejectEmpty t k [q0; q1] [v0; v1] J p = Raise ValueError.
Proof.
  intros Hp Ha HJ. split.
  - eapply R_no_contact_accept; eassumption.
  - eapply R_no_contact_reject; eassumption.
Qed.

Lemma nominal_in_domain :
  coef_b nominal_parameters <> 0 /\
  Rabs (coef_d nominal_parameters / coef_b nominal_parameters) <= 1.
Proof.
  rewrite nominal_coef_b, nominal_coef_d. split; [lra|].
  rewrite Rabs_pos_eq; lra.
Qed.

Lemma f64_ltb0_nonneg (r : R) : 0 <= r -> f64_ltb0 (Fin r) = false.
Proof.
  intros Hr. cbn [f64_ltb0]. destruct (Rlt_dec r 0); [lra|reflexivity].
Qed.

Lemma R_without_penetration_witness :
  R_ AcceptEmpty 0 0 [1; 0] [-1; 1] [true; true] nominal_parameters
  = Ok ([1; 0], [-1; 1], [true; true]) /\
  R_ RejectEmpty 0 0 [1; 0] [-1; 1] [true; true] nominal_parameters
  = Raise ValueError.
Proof.
  destruct nominal_in_domain as [Hb Hr].
  apply (R_without_penetration 0 0 1 0 (-1) 1 [true; true]
           nominal_parameters
           [Fin 1; Fin (- 0 + acos (- coef_d nominal_parameters
                                    / coef_b nominal_parameters))]).
  - exact nominal_valid.
  - apply a_in_domain; assumption.
  - cbn [map]. rewrite !f64_ltb0_nonneg; [reflexivity| |lra].
    pose proof (acos_bound (- coef_d nominal_parameters
                            / coef_b nominal_parameters)). lra.
Defined.



(** ** The simultaneous impact configuration *)

(** X13: the configuration that [simultaneous_impact_configuration] returns
    is the zero of the constraint: there [a] is [[0, 0]], so no contact
    tests as penetrated and an impact leaves the velocity as it was
    (where [la.inv] returns the empty array). *)
Theorem a_zero_at_simultaneous_impact t k dq J p :
  valid_params p ->
  Rabs (coef_d p / coef_b p) <= 1 ->
  exists c,
    simultaneous_impact_configuration p = Ok [Fin 0; Fin c] /\
    a t k [0; c] dq J p = Ok [Fin 0; Fin 0] /\
    forall v0 v1,
      R_ AcceptEmpty t k [0; c] [v0; v1] J p = Ok ([0; c], [v0; v1], J).
Proof.
  intros Hp Hr.
  assert (Hb : coef_b p <> 0).
  { destruct Hp as (_ & Hm1 & Hl0 & Hl1). unfold coef_b.
    assert (0 < m1 p * l0 p * l1 p) by (repeat apply Rmult_lt_0_compat; lra).
    lra. }
  exists (acos (- coef_d p / coef_b p)).
  assert (Ha : forall dq',
             a t k [0; acos (- coef_d p / coef_b p)] dq' J p
             = Ok [Fin 0; Fin 0]).
  { intros dq'. rewrite a_in_domain by assumption.
    arr_eq. f_equal. ring. }
  split; [|split].
  - unfold simultaneous_impact_configuration.
    fold (coef_b p) (coef_d p). unfold py_div.
    destruct (Req_dec_T (coef_b p) 0) as [Z|_]; [contradiction|].
    cbn [bind]. unfold np_arccos.
    replace (- coef_d p / coef_b p) with (- (coef_d p / coef_b p))
      by (field; assumption).
    rewrite Rabs_Ropp.
    destruct (Rle_dec _ 1) as [_|N]; [reflexivity|contradiction].
  - apply Ha.
  - intros v0 v1. apply (R_no_contact_accept _ _ _ _ _ _ _ _ _ Hp (Ha _)).
    cbn [map]. rewrite !f64_ltb0_nonneg by lra. reflexivity.
Qed.

Lemma a_zero_at_simultaneous_impact_witness :
  exists c,
    simultaneous_impact_configuration nominal_parameters
    = Ok [Fin 0; Fin c] /\
    a 0 0 [0; c] [-1; 1] [false; false] nominal_parameters
    = Ok [Fin 0; Fin 0] /\
    forall v0 v1,
      R_ AcceptEmpty 0 0 [0; c] [v0; v1] [false; false] nominal_parameters
      = Ok ([0; c], [v0; v1], [false; false]).
Proof.
  apply (a_zero_at_simultaneous_impact 0 0 [-1; 1] [false; false]
           nominal_parameters).
  - exact nominal_valid.
  - exact (proj2 nominal_in_domain).
Defined.

(** ** Free motion conserves the kinetic energy *)

Lemma deriv_affine_cos (c1 c2 x : R) :
  derivable_pt_lim (fun s => c1 + c2 * cos s) x (c2 * - sin x).
Proof.
  replace (c2 * - sin x) with (0 + c2 * - sin x) by ring.
  apply (derivable_pt_lim_plus (fct_cte c1) (mult_real_fct c2 cos)).
  - apply derivable_pt_lim_const.
  - apply derivable_pt_lim_scal. apply derivable_pt_lim_cos.
Qed.

(** X14: the derivative of the mass matrix along a motion is
    [dM = (dM/dq1) dq1], since [M] reads [q1] only.  With it the Coriolis
    matrix satisfies [dq^T (dM - 2 C) dq = 0], and the acceleration that
    [ddq] returns keeps the kinetic energy [dq^T M dq / 2] constant:
    [2 dq^T M ddq + dq^T dM dq = 0]. *)
Theorem free_motion_conserves_energy pol t k q0 q1 v0 v1 J p :
  valid_params p ->
  exists Mq Cq dM acc,
    M t k [q0; q1] J p = Ok Mq /\
    C t k [q0; q1] [v0; v1] J p = Ok Cq /\
    ddq pol t k [q0; q1] [v0; v1] J p = Ok acc /\
    derivable_pt_lim
      (fun s => entry 0 0 (value_of (M t k [q0; s] J p))) q1
      (entry 0 0 dM) /\
    derivable_pt_lim
      (fun s => entry 0 1 (value_of (M t k [q0; s] J p))) q1
      (entry 0 1 dM) /\
    derivable_pt_lim
      (fun s => entry 1 0 (value_of (M t k [q0; s] J p))) q1
      (entry 1 0 dM) /\
    derivable_pt_lim
      (fun s => entry 1 1 (value_of (M t k [q0; s] J p))) q1
      (entry 1 1 dM) /\
    v1 * quad dM [v0; v1] - 2 * quad Cq [v0; v1] = 0 /\
    2 * dot [v0; v1] (mvmul Mq acc) + v1 * quad dM [v0; v1] = 0.
Proof.
  intros Hp. destruct (valid_nonzero p q1 Hp) as (Hd & _ & _).
  eexists. eexists.
  exists (mkMatrix 2 [[2 * coef_b p * - sin q1; coef_b p * - sin q1];
                      [coef_b p * - sin q1; 0]]).
  eexists.
  split; [apply M_pair|]. split; [apply C_pair|].
  split; [apply ddq_pair; exact Hd|].
  split; [exact (deriv_affine_cos _ _ _)|].
  split; [exact (deriv_affine_cos _ _ _)|].
  split; [exact (deriv_affine_cos _ _ _)|].
  split; [exact (derivable_pt_lim_const (coef_d p) q1)|].
  set (x := coef_a p + 2 * coef_b p * cos q1) in *.
  set (y := coef_d p + coef_b p * cos q1) in *.
  set (w := coef_d p) in *.
  generalize (sin q1). generalize (coef_b p). intros b s.
  clearbody x y w.
  unfold quad. split; arr_compute; field; exact Hd.
Qed.

Lemma free_motion_conserves_energy_witness :
  exists Mq Cq dM acc,
    M 0 0 [0; 1] [false; false] nominal_parameters = Ok Mq /\
    C 0 0 [0; 1] [-1; 1] [false; false] nominal_parameters = Ok Cq /\
    ddq AcceptEmpty 0 0 [0; 1] [-1; 1] [false; false] nominal_parameters
    = Ok acc /\
    derivable_pt_lim
      (fun s => entry 0 0
                  (value_of (M 0 0 [0; s] [false; false]
                               nominal_parameters))) 1
      (entry 0 0 dM) /\
    derivable_pt_lim
      (fun s => entry 0 1
                  (value_of (M 0 0 [0; s] [false; false]
                               nominal_parameters))) 1
      (entry 0 1 dM) /\
    derivable_pt_lim
      (fun s => entry 1 0
                  (value_of (M 0 0 [0; s] [false; false]
                               nominal_parameters))) 1
      (entry 1 0 dM) /\
    derivable_pt_lim
      (fun s => entry 1 1
                  (value_of (M 0 0 [0; s] [false; false]
                               nominal_parameters))) 1
      (entry 1 1 dM) /\
    1 * quad dM [-1; 1] - 2 * quad Cq [-1; 1] = 0 /\
    2 * dot [-1; 1] (mvmul Mq acc) + 1 * quad dM [-1; 1] = 0.
Proof.
  apply (free_motion_conserves_energy AcceptEmpty 0 0 0 1 (-1) 1
           [false; false] nominal_parameters).
  exact nominal_valid.
Defined.

(** ** The points of [draw_config] *)

(** X15: the points that [draw_config] joins keep the link lengths: [P1] is
    at distance [l0] from the origin and [P2] at distance [l1] from
    [P1], in the direction [q0 + q1]; so [q1] is the angle of link 1
    relative to link 0. *)
Theorem draw_config_link_lengths q0 q1 p :
  exists P1 P2,
    draw_config_points [q0; q1] p false = Ok ([0; 0], P1, P2, None) /\
    dist2 P1 [0; 0] = l0 p ^ 2 /\
    dist2 P2 P1 = l1 p ^ 2 /\
    P2 = vadd P1 [l1 p * cos (q0 + q1); l1 p * sin (q0 + q1)].
Proof.
  eexists. eexists. split; [reflexivity|].
  split; [|split].
  - unfold dist2. arr_compute.
    transitivity (l0 p * l0 p * (Rsqr (sin q0) + Rsqr (cos q0)));
      [unfold Rsqr; ring|rewrite sin2_cos2; lra].
  - unfold dist2, Rot. arr_compute.
    transitivity (l1 p * l1 p * (Rsqr (sin q0) + Rsqr (cos q0))
                  * (Rsqr (sin q1) + Rsqr (cos q1)));
      [unfold Rsqr; ring|rewrite !sin2_cos2; lra].
  - unfold Rot. arr_compute. rewrite cos_plus, sin_plus. arr_eq; ring.
Qed.

Lemma draw_config_points_in_domain q0 q1 p :
  coef_b p <> 0 ->
  Rabs (coef_d p / coef_b p) <= 1 ->
  draw_config_points [q0; q1] p true
  = Ok ([0; 0],
        [cos q0 * l0 p; sin q0 * l0 p],
        vadd (mvmul (Rot q0) [cos q1 * l1 p; sin q1 * l1 p])
             [cos q0 * l0 p; sin q0 * l0 p],
        Some (map Fin
                (vadd (mvmul (Rot q0)
                         [cos (acos (- coef_d p / coef_b p)) * l1 p / 2;
                          sin (acos (- coef_d p / coef_b p)) * l1 p / 2])
                      [cos q0 * l0 p; sin q0 * l0 p]))).
Proof.
  intros Hb Hr. unfold draw_config_points.
  fold (coef_b p) (coef_d p). cbn [getitem nth_error bind].
  unfold Rot, matvec, vec_add, np_array.
  cbn [ncols length Nat.eqb bind mvmul rows map vadd].
  unfold py_div.
  destruct (Req_dec_T (coef_b p) 0) as [Z|_]; [contradiction|].
  cbn [bind]. unfold np_arccos.
  replace (Rabs (- coef_d p / coef_b p))
    with (Rabs (coef_d p / coef_b p)).
  2:{ rewrite <- Rabs_Ropp. f_equal. field; assumption. }
  destruct (Rle_dec _ 1) as [_|N]; [|contradiction].
  reflexivity.
Qed.

(** X16: the constraint line that [draw_config] draws from [P1] has length
    [l1 / 2], and it ends at the middle of link 1 exactly when link 1
    is at the contact angle, the second entry of
    [simultaneous_impact_configuration]. *)
Theorem draw_config_contact_point q0 p :
  coef_b p <> 0 ->
  Rabs (coef_d p / coef_b p) <= 1 ->
  exists theta P1 P2 PC,
    simultaneous_impact_configuration p = Ok [Fin 0; Fin theta] /\
    draw_config_points [q0; theta] p true
    = Ok ([0; 0], P1, P2, Some (map Fin PC)) /\
    dist2 PC P1 = (l1 p / 2) ^ 2 /\
    vadd PC PC = vadd P1 P2.
Proof.
  intros Hb Hr. exists (acos (- coef_d p / coef_b p)).
  eexists. eexists. eexists. split; [|split; [|split]].
  - unfold simultaneous_impact_configuration.
    fold (coef_b p) (coef_d p). unfold py_div.
    destruct (Req_dec_T (coef_b p) 0) as [Z|_]; [contradiction|].
    cbn [bind]. unfold np_arccos.
    replace (Rabs (- coef_d p / coef_b p))
      with (Rabs (coef_d p / coef_b p)).
    2:{ rewrite <- Rabs_Ropp. f_equal. field; assumption. }
    destruct (Rle_dec _ 1) as [_|N]; [reflexivity|contradiction].
  - apply draw_config_points_in_domain; assumption.
  - generalize (acos (- coef_d p / coef_b p)). intros th.
    unfold dist2, Rot. arr_compute.
    transitivity (l1 p / 2 * (l1 p / 2)
                  * (Rsqr (sin q0) + Rsqr (cos q0))
                  * (Rsqr (sin th) + Rsqr (cos th)));
      [unfold Rsqr; field|rewrite !sin2_cos2; ring].
  - generalize (acos (- coef_d p / coef_b p)). intros th.
    unfold Rot. arr_compute. arr_eq; field.
Qed.

Lemma draw_config_contact_point_witness :
  exists theta P1 P2 PC,
    simultaneous_impact_configuration nominal_parameters
    = Ok [Fin 0; Fin theta] /\
    draw_config_points [0; theta] nominal_parameters true
    = Ok ([0; 0], P1, P2, Some (map Fin PC)) /\
    dist2 PC P1 = (l1 nominal_parameters / 2) ^ 2 /\
    vadd PC PC = vadd P1 P2.
Proof.
  apply (draw_config_contact_point 0 nominal_parameters).
  - exact (proj1 nominal_in_domain).
  - exact (proj2 nominal_in_domain).
Defined.

(** X17: [draw_config] with [draw_a1] divides by [b]: it raises
    [ZeroDivisionError] when [b = 0], although the beam alone could be
    drawn; and when [|d / b| > 1] it draws the constraint line to a
    point whose two coordinates are [nan]. *)
Theorem draw_config_contact_edges q0 q1 p :
  (coef_b p = 0 ->
   draw_config_points [q0; q1] p true = Raise ZeroDivisionError /\
   returns (draw_config_points [q0; q1] p false)) /\
  (coef_b p <> 0 -> 1 < Rabs (coef_d p / coef_b p) ->
   exists P1 P2,
     draw_config_points [q0; q1] p true
     = Ok ([0; 0], P1, P2, Some [NaN; NaN])).
Proof.
  split.
  - intros Hb. split; [|eexists; reflexivity].
    unfold draw_config_points.
    fold (coef_b p) (coef_d p). cbn [getitem nth_error bind].
    unfold Rot, matvec, vec_add, np_array.
    cbn [ncols length Nat.eqb bind mvmul rows map vadd].
    unfold py_div.
    destruct (Req_dec_T (coef_b p) 0) as [_|N]; [reflexivity|contradiction].
  - intros Hb Hr. eexists. eexists.
    unfold draw_config_points.
    fold (coef_b p) (coef_d p). cbn [getitem nth_error bind].
    unfold Rot, matvec, vec_add, np_array.
    cbn [ncols length Nat.eqb bind mvmul rows map vadd].
    unfold py_div.
    destruct (Req_dec_T (coef_b p) 0) as [Z|_]; [contradiction|].
    cbn [bind]. unfold np_arccos.
    replace (Rabs (- coef_d p / coef_b p))
      with (Rabs (coef_d p / coef_b p)).
    2:{ rewrite <- Rabs_Ropp. f_equal. field; assumption. }
    destruct (Rle_dec _ 1) as [L|_]; [exfalso; lra|]. reflexivity.
Qed.

Lemma draw_config_contact_edges_witness :
  (draw_config_points [0; 0] (mkParams 1 0 1 1 0) true
   = Raise ZeroDivisionError /\
   returns (draw_config_points [0; 0] (mkParams 1 0 1 1 0) false)) /\
  exists P1 P2,
    draw_config_points [0; 0] unit_parameters true
    = Ok ([0; 0], P1, P2, Some [NaN; NaN]).
Proof.
  split.
  - apply (proj1 (draw_config_contact_edges 0 0 (mkParams 1 0 1 1 0))).
    unfold coef_b; cbn [m1 l0 l1]. field.
  - apply (proj2 (draw_config_contact_edges 0 0 unit_parameters)).
    + rewrite unit_coef_b. lra.
    + rewrite unit_coef_b, unit_coef_d. rewrite Rabs_pos_eq; lra.
Defined.

(** ** Degenerate parameters in the impact map *)

(** X18: with [b = 0] (a vanishing [m1], [l0] or [l1]) the projector cannot
    be built: [Delta] raises [LinAlgError] on the singular mass matrix,
    and the impact map raises [ZeroDivisionError] before that, in [a]. *)
Theorem impact_degenerate_parameters pol t k q0 q1 v0 v1 (j0 j1 : bool) J p :
  m1 p = 0 \/ l0 p = 0 \/ l1 p = 0 ->
  Delta pol t k [q0; q1] [v0; v1] [j0; j1] p = Raise LinAlgError /\
  R_ pol t k [q0; q1] [v0; v1] J p = Raise ZeroDivisionError.
Proof.
  intros H. split.
  - rewrite Delta_projector, M_pair, Da_pair. cbn [bind]. unfold projector.
    rewrite la_inv_2x2_singular; [reflexivity|].
    unfold coef_a, coef_b, coef_d. cbn [pow].
    destruct H as [H|[H|H]]; rewrite H; field.
  - unfold R_. rewrite a_zero_b; [reflexivity|].
    unfold coef_b. destruct H as [H|[H|H]]; rewrite H; field.
Qed.

Lemma impact_degenerate_parameters_witness :
  Delta AcceptEmpty 0 0 [0; 0] [-1; 1] [true; true] (mkParams 1 1 1 0 0)
  = Raise LinAlgError /\
  R_ AcceptEmpty 0 0 [0; 0] [-1; 1] [true; true] (mkParams 1 1 1 0 0)
  = Raise ZeroDivisionError.
Proof.
  apply (impact_degenerate_parameters AcceptEmpty 0 0 0 0 (-1) 1 true true
           [true; true] (mkParams 1 1 1 0 0)).
  right. right. reflexivity.
Defined.

(** X19: when [|d / b| > 1] the second constraint value is [nan], which never
    tests as negative: the impact map then enforces contact 0 alone,
    however far link 1 has swung.  For [q0 < 0] it reverses [dq0] with
    the factor [gamma] and corrects [dq1] through the mass matrix. *)
Theorem R_unrealizable_contact pol t k q0 q1 v0 v1 J p :
  valid_params p ->
  1 < Rabs (coef_d p / coef_b p) ->
  q0 < 0 ->
  exists Mq,
    M t k [q0; q1] J p = Ok Mq /\
    R_ pol t k [q0; q1] [v0; v1] J p
    = Ok ([q0; q1],
          [- gamma p * v0;
           (1 + gamma p) * entry 1 0 Mq / entry 1 1 Mq * v0 + v1],
          J).
Proof.
  intros Hp Hr Hq. destruct (valid_nonzero p q1 Hp) as (Hd & _ & Hw).
  assert (Hb : coef_b p <> 0).
  { destruct Hp as (_ & Hm1 & Hl0 & Hl1). unfold coef_b.
    assert (0 < m1 p * l0 p * l1 p) by (repeat apply Rmult_lt_0_compat; lra).
    lra. }
  eexists. split; [apply M_pair|].
  pose proof (a_out_of_domain t k q0 q1 [v0; v1] J p Hb Hr) as Ha.
  assert (HJ : map f64_ltb0 [Fin q0; NaN] = [true; false]).
  { cbn [map f64_ltb0]. destruct (Rlt_dec q0 0); [reflexivity|contradiction]. }
  assert (HD := Delta_TF pol t k q0 q1 [v0; v1] p Hd Hw).
  rewrite <- HJ in HD.
  rewrite (R_of_parts _ _ _ _ _ _ _ _ _ _ _ Ha HD).
  unfold entry. arr_compute. arr_eq; ring.
Qed.

Lemma unit_valid : valid_params unit_parameters.
Proof.
  unfold valid_params, unit_parameters; cbn [m0 m1 l0 l1].
  repeat split; lra.
Qed.

Lemma R_unrealizable_contact_witness :
  exists Mq,
    M 0 0 [-1; 5] [false; false] unit_parameters = Ok Mq /\
    R_ AcceptEmpty 0 0 [-1; 5] [-1; 1] [false; false] unit_parameters
    = Ok ([-1; 5],
          [- gamma unit_parameters * -1;
           (1 + gamma unit_parameters) * entry 1 0 Mq / entry 1 1 Mq * -1
           + 1],
          [false; false]).
Proof.
  apply (R_unrealizable_contact AcceptEmpty 0 0 (-1) 5 (-1) 1
           [false; false] unit_parameters).
  - exact unit_valid.
  - rewrite unit_coef_b, unit_coef_d. rewrite Rabs_pos_eq; lra.
  - lra.
Defined.

(** ** The impact map is linear in the velocity *)

Lemma dot_linear (c : R) (r v v' : list R) :
  length v = length v' ->
  dot r (vadd (map (Rmult c) v) v') = c * dot r v + dot r v'.
Proof.
  revert v v'. induction r as [|x r IH]; intros v v' Hl.
  - destruct v, v'; cbn; ring.
  - destruct v as [|y v], v' as [|y' v']; try discriminate Hl.
    + cbn. ring.
    + cbn [map vadd dot]. rewrite IH by (injection Hl as Hl; exact Hl).
      ring.
Qed.

Lemma mvmul_linear (c : R) (D : matrix) (v v' : vector) :
  length v = length v' ->
  mvmul D (vadd (map (Rmult c) v) v')
  = vadd (map (Rmult c) (mvmul D v)) (mvmul D v').
Proof.
  intros Hl. unfold mvmul. induction (rows D) as [|r rs IH].
  - reflexivity.
  - cbn [map vadd]. rewrite dot_linear by exact Hl. rewrite IH.
    reflexivity.
Qed.

(** X20: at a given configuration the impact map acts linearly on the
    velocity: the constraint values, hence the projector, do not depend
    on it. *)
Theorem R_linear pol t k q0 q1 v0 v1 v0' v1' J p u u' (c : R) :
  R_ pol t k [q0; q1] [v0; v1] J p = Ok ([q0; q1], u, J) ->
  R_ pol t k [q0; q1] [v0'; v1'] J p = Ok ([q0; q1], u', J) ->
  R_ pol t k [q0; q1] [c * v0 + v0'; c * v1 + v1'] J p
  = Ok ([q0; q1], vadd (map (Rmult c) u) u', J).
Proof.
  unfold R_.
  change (a t k [q0; q1] [v0'; v1'] J p) with (a t k [q0; q1] [v0; v1] J p).
  change (a t k [q0; q1] [c * v0 + v0'; c * v1 + v1'] J p)
    with (a t k [q0; q1] [v0; v1] J p).
  destruct (a t k [q0; q1] [v0; v1] J p) as [av|e]; [|discriminate].
  cbn [bind].
  change (Delta pol t k [q0; q1] [v0'; v1'] (map f64_ltb0 av) p)
    with (Delta pol t k [q0; q1] [v0; v1] (map f64_ltb0 av) p).
  change (Delta pol t k [q0; q1] [c * v0 + v0'; c * v1 + v1']
            (map f64_ltb0 av) p)
    with (Delta pol t k [q0; q1] [v0; v1] (map f64_ltb0 av) p).
  destruct (Delta pol t k [q0; q1] [v0; v1] (map f64_ltb0 av) p)
    as [D|e] eqn:HD; [|discriminate].
  cbn [bind]. pose proof (Delta_shape_2x2 _ _ _ _ _ _ _ _ HD) as (_ & _ & Hc).
  unfold matvec. rewrite Hc. cbn [length Nat.eqb bind].
  intros [= <-] [= <-].
  change [c * v0 + v0'; c * v1 + v1']
    with (vadd (map (Rmult c) [v0; v1]) [v0'; v1']).
  rewrite mvmul_linear by reflexivity. reflexivity.
Qed.

Lemma R_linear_witness :
  R_ AcceptEmpty 0 0 [-1; 5] [2 * -1 + 0; 2 * 1 + 1] [false; false]
     nominal_parameters
  = Ok ([-1; 5],
        vadd (map (Rmult 2)
                (mvmul (mkMatrix 2 [[- gamma nominal_parameters; 0];
                                    [0; - gamma nominal_parameters]])
                       [-1; 1]))
             (mvmul (mkMatrix 2 [[- gamma nominal_parameters; 0];
                                 [0; - gamma nominal_parameters]])
                    [0; 1]),
        [false; false]).
Proof.
  assert (HR : forall v0 v1,
             R_ AcceptEmpty 0 0 [-1; 5] [v0; v1] [false; false]
                nominal_parameters
             = Ok ([-1; 5],
                   mvmul (mkMatrix 2 [[- gamma nominal_parameters; 0];
                                      [0; - gamma nominal_parameters]])
                         [v0; v1],
                   [false; false])).
  { intros v0 v1.
    destruct (nominal_a_penetrated [v0; v1] [false; false])
      as (a0 & a1 & Ha & HJ).
    apply (R_of_parts AcceptEmpty 0 0 (-1) 5 v0 v1 [false; false]
             nominal_parameters [Fin a0; Fin a1]).
    - exact Ha.
    - rewrite HJ. apply Delta_TT. apply nominal_det_nonzero. }
  apply (R_linear AcceptEmpty 0 0 (-1) 5 (-1) 1 0 1 [false; false]
           nominal_parameters _ _ 2 (HR (-1) 1) (HR 0 1)).
Defined.
